(** * Component directory resolution and registry of the components module

    A shallow embedding of [packages/nuxt/src/components/module.ts]:
    the directory normaliser [normalizeDirs], the [app:resolve] handler
    that builds [componentDirs], the registry accessor [getComponents],
    the [app:templates] handler that publishes a scan, and the
    [builder:watch] handler.

    JavaScript values are an inductive type; objects are association
    lists in insertion order; a thrown exception is a [Throw] result;
    module-level mutable bindings ([componentDirs], [context]) and the
    observable side effects (console, hook calls, the transpile list)
    live in an explicit state threaded through a small state-and-exception
    monad. *)

From Stdlib Require Import List String Ascii Bool Arith ZArith Lia Permutation Sorted.
Import ListNotations.
Open Scope string_scope.
Open Scope list_scope.

Set Implicit Arguments.

(** ** JavaScript values *)

Module JS.

(** Numbers are only ever tested for truthiness here, so an integer
    stands for them. *)
#[local] Unset Elimination Schemes.
Inductive value : Type :=
| VUndefined
| VNull
| VBool (b : bool)
| VNum (n : Z)
| VStr (s : string)
| VObj (fields : list (string * value))
| VArr (items : list value).
#[local] Set Elimination Schemes.

Definition fields := list (string * value).

(** Induction that gives the hypothesis for the items of an array, which is
    where [normalizeDirs] recurses. *)
Section value_array_ind.
Variable P : value -> Prop.
Hypothesis Hundef : P VUndefined.
Hypothesis Hnull : P VNull.
Hypothesis Hbool : forall b, P (VBool b).
Hypothesis Hnum : forall n, P (VNum n).
Hypothesis Hstr : forall s, P (VStr s).
Hypothesis Hobj : forall fs, P (VObj fs).
Hypothesis Harr : forall items, Forall P items -> P (VArr items).

Fixpoint value_array_ind (v : value) : P v :=
  match v with
  | VUndefined => Hundef
  | VNull => Hnull
  | VBool b => Hbool b
  | VNum n => Hnum n
  | VStr s => Hstr s
  | VObj fs => Hobj fs
  | VArr items =>
      Harr ((fix all (l : list value) : Forall P l :=
               match l with
               | [] => Forall_nil P
               | x :: l' => Forall_cons x (value_array_ind x) (all l')
               end) items)
  end.
End value_array_ind.

(** [Boolean(v)]. *)
Definition truthy (v : value) : bool :=
  match v with
  | VUndefined | VNull => false
  | VBool b => b
  | VNum n => negb (n =? 0)%Z
  | VStr s => negb (s =? "")
  | VObj _ | VArr _ => true
  end.

(** [a || b]. *)
Definition or_else (a b : value) : value := if truthy a then a else b.

(** Property read on an object's own fields; a missing key reads
    [undefined]. *)
Fixpoint get (k : string) (fs : fields) : value :=
  match fs with
  | [] => VUndefined
  | (k', v) :: fs' => if k' =? k then v else get k fs'
  end.

(** Property write: an existing key keeps its position, a new key goes
    last. *)
Fixpoint set (k : string) (v : value) (fs : fields) : fields :=
  match fs with
  | [] => [(k, v)]
  | (k', v') :: fs' => if k' =? k then (k, v) :: fs' else (k', v') :: set k v fs'
  end.

(** [{ ...a, ...b }]. *)
Definition spread (a b : fields) : fields :=
  fold_left (fun acc kv => set (fst kv) (snd kv) acc) b a.

(** An object literal [{ k1: v1, ... }], later keys overriding. *)
Definition literal (kvs : fields) : fields := spread [] kvs.

(** [Array.isArray(v)] and the [typeof] tests the module uses. *)
Definition isArray (v : value) : bool :=
  match v with VArr _ => true | _ => false end.

Definition typeof_object (v : value) : bool :=
  match v with VObj _ | VArr _ | VNull => true | _ => false end.

Definition typeof_string (v : value) : bool :=
  match v with VStr _ => true | _ => false end.

(** [arr.flat()]: one level. *)
Definition flat (items : list value) : list value :=
  flat_map (fun v => match v with VArr xs => xs | _ => [v] end) items.

End JS.
Import JS.

(** ** Exceptions *)

Inductive error : Type :=
| TypeError
| Rejected (reason : string).

Inductive result (A : Type) : Type :=
| Ok (a : A)
| Throw (e : error).
Arguments Throw {A} e.

Definition rbind {A B} (r : result A) (k : A -> result B) : result B :=
  match r with
  | Ok a => k a
  | Throw e => Throw e
  end.

Declare Scope result_scope.
Delimit Scope result_scope with result.
Notation "'let?' x ':=' r 'in' k" := (rbind r (fun x => k))
  (at level 10, x name, r at level 100, k at level 200) : result_scope.
Open Scope result_scope.

(** [arr.map(f)] for a callback that may throw: left to right, stopping at
    the first exception. *)
Section mapR.
Variables A B : Type.
Variable f : A -> result B.
Fixpoint mapR (l : list A) : result (list B) :=
  match l with
  | [] => Ok []
  | x :: l' =>
      let? y := f x in
      let? ys := mapR l' in
      Ok (y :: ys)
  end.
End mapR.

(** ** Strings and paths *)

Definition backslash : ascii := ascii_of_nat 92.

Definition is_sep (c : ascii) : bool := (c =? "/")%char || (c =? backslash)%char.

(** [s.split(/[\/]/)]. *)
Fixpoint split_sep (s : string) : list string :=
  match s with
  | EmptyString => [EmptyString]
  | String c s' =>
      if is_sep c then EmptyString :: split_sep s'
      else match split_sep s' with
           | [] => [String c EmptyString]
           | seg :: segs => String c seg :: segs
           end
  end.

(** [p.split(/[\/]/).filter(Boolean).length]. *)
Definition path_depth (p : string) : nat :=
  List.length (filter (fun seg => negb (seg =? "")) (split_sep p)).

(** [s.startsWith(pre)]. *)
Definition startsWith (s pre : string) : bool := String.prefix pre s.

(** [s.includes(needle)]. *)
Fixpoint includes (s needle : string) : bool :=
  String.prefix needle s ||
  match s with
  | EmptyString => false
  | String _ s' => includes s' needle
  end.

Fixpoint string_rev_onto (s acc : string) : string :=
  match s with
  | EmptyString => acc
  | String c s' => string_rev_onto s' (String c acc)
  end.

(** [s.endsWith(suf)], which is what a regular expression anchored by [$]
    tests. *)
Definition endsWith (s suf : string) : bool :=
  String.prefix (string_rev_onto suf "") (string_rev_onto s "").

(** [DEFAULT_COMPONENTS_DIRS_RE.test(p)] for
    [/\/components$|\/components\/global$/]. *)
Definition DEFAULT_COMPONENTS_DIRS_RE_test (p : string) : bool :=
  endsWith p "/components" || endsWith p "/components/global".

(** [e.replace(/^\./g, '')]. *)
Definition strip_leading_dot (e : string) : string :=
  match e with
  | String c e' => if (c =? ".")%char then e' else e
  | EmptyString => e
  end.

(** [isPureObjectOrString]. *)
Definition isPureObjectOrString (val : value) : bool :=
  (negb (isArray val) && typeof_object val) || typeof_string val.

(** The [{ path }] destructuring of [compareDirByPathLength] followed by
    [path.split]: it needs a value that has properties and whose [path] is a
    string, and throws a [TypeError] on anything else. *)
Definition path_of (v : value) : result string :=
  match v with
  | VObj fs => match get "path" fs with
               | VStr p => Ok p
               | _ => Throw TypeError
               end
  | _ => Throw TypeError
  end.

Definition compareDirByPathLength (a b : value) : result Z :=
  let? pathA := path_of a in
  let? pathB := path_of b in
  Ok (Z.of_nat (path_depth pathB) - Z.of_nat (path_depth pathA))%Z.

(** [arr.sort(compareDirByPathLength)].  [Array.prototype.sort] is stable;
    it is modelled by a stable insertion sort that calls the comparator,
    so an array of fewer than two elements is never inspected. *)
Fixpoint sort_insert (x : value) (l : list value) : result (list value) :=
  match l with
  | [] => Ok [x]
  | y :: l' =>
      let? c := compareDirByPathLength x y in
      if (c <=? 0)%Z then Ok (x :: l)
      else let? r := sort_insert x l' in Ok (y :: r)
  end.

Fixpoint sort_dirs (l : list value) : result (list value) :=
  match l with
  | [] => Ok []
  | x :: l' => let? s := sort_dirs l' in sort_insert x s
  end.

(** [arr.filter(f)] for a test that may throw. *)
Section filterR.
Variable A : Type.
Variable f : A -> result bool.
Fixpoint filterR (l : list A) : result (list A) :=
  match l with
  | [] => Ok []
  | x :: l' =>
      let? keep := f x in
      let? rest := filterR l' in
      Ok (if keep then x :: rest else rest)
  end.
End filterR.

(** [arr.find(f)]: the first element that passes, looking no further. *)
Section findR.
Variable A : Type.
Variable f : A -> result bool.
Fixpoint findR (l : list A) : result (option A) :=
  match l with
  | [] => Ok None
  | x :: l' =>
      let? hit := f x in
      if hit then Ok (Some x) else findR l'
  end.
End findR.

(** [v.k] for one of the keys the module reads ([path], [dirs], ...): reading
    a property of [undefined] or [null] throws; strings, numbers, booleans and
    arrays have no such property. *)
Definition prop (k : string) (v : value) : result value :=
  match v with
  | VUndefined | VNull => Throw TypeError
  | VObj fs => Ok (get k fs)
  | _ => Ok VUndefined
  end.

(** What [{ ...v }] copies. *)
Definition own_fields (v : value) : fields :=
  match v with
  | VObj fs => fs
  | _ => []
  end.

(** The receiver of [.map] must be an array. *)
Definition as_array (v : value) : result (list value) :=
  match v with
  | VArr items => Ok items
  | _ => Throw TypeError
  end.

(** ** The directory normaliser *)

Section Normalizer.

(** [resolve] of pathe and [resolveAlias] of the kit, both on strings. *)
Variable resolve : string -> string -> string.
Variable resolveAlias : string -> string.

(** [resolve(cwd, resolveAlias(p))]; [resolveAlias] calls
    [path.startsWith], so anything but a string throws. *)
Definition resolve_path (cwd : string) (p : value) : result value :=
  match p with
  | VStr s => Ok (VStr (resolve cwd (resolveAlias s)))
  | _ => Throw TypeError
  end.

(** Lines 58-62: the branch for a truthy value that is neither an array,
    [true] nor a string. *)
Definition normalizeEntries (dir : value) (cwd : string) : result value :=
  let? dirs_field := prop "dirs" dir in
  let? entries := as_array (or_else dirs_field (VArr [dir])) in
  let wrapped :=
    map (fun d => match d with
                  | VStr s => VObj [("path", VStr s)]
                  | _ => d
                  end) entries in
  let? dirs := filterR (fun _dir => let? p := prop "path" _dir in Ok (truthy p))
                       wrapped in
  let? out := mapR (fun _dir =>
                      let? p := prop "path" _dir in
                      let? r := resolve_path cwd p in
                      Ok (VObj (set "path" r (own_fields _dir)))) dirs in
  Ok (VArr out).

Fixpoint normalizeDirs (dir : value) (cwd : string) {struct dir} : result value :=
  match dir with
  | VArr items =>
      let? parts := mapR (fun d => normalizeDirs d cwd) items in
      let? sorted := sort_dirs (flat parts) in
      Ok (VArr sorted)
  | VBool true | VUndefined =>
      Ok (VArr [ VObj [("path", VStr (resolve cwd "components/global"));
                       ("global", VBool true)];
                 VObj [("path", VStr (resolve cwd "components"))] ])
  | VStr s =>
      Ok (VObj [("path", VStr (resolve cwd (resolveAlias s)))])
  | _ =>
      if negb (truthy dir) then Ok (VArr [])
      else normalizeEntries dir cwd
  end.

End Normalizer.

(** ** Module state and effects *)

Inductive Mode : Type := client | server | all.

Definition Mode_eqb (a b : Mode) : bool :=
  match a, b with
  | client, client | server, server | all, all => true
  | _, _ => false
  end.

(** A scanned component; this module reads only its [mode], which the schema
    leaves optional. *)
Record Component : Type := mkComponent {
  name : string;
  filePath : string;
  mode : option Mode
}.

Definition mode_of (c : Component) : option Mode := mode c.

(** [a === b] on optional modes. *)
Definition same_mode (a : option Mode) (b : Mode) : bool :=
  match a with
  | Some a' => Mode_eqb a' b
  | None => false
  end.

Record State : Type := mkState {
  componentDirs : list value;          (* let componentDirs *)
  context_components : list Component; (* context.components *)
  build_transpile : list value;        (* nuxt.options.build.transpile *)
  console : list string;               (* lines written by console.warn *)
  hookCalls : list string              (* names passed to nuxt.callHook *)
}.

(** The state [setup] leaves behind (lines 29-32), in a project whose
    transpile list is [transpile0]. *)
Definition initial (transpile0 : list value) : State :=
  mkState [] [] transpile0 [] [].

(** A handler: runs from a state, ends in a state, returns or throws. *)
Definition M (A : Type) : Type := State -> result A * State.

Definition ret {A} (a : A) : M A := fun st => (Ok a, st).
Definition lift {A} (r : result A) : M A := fun st => (r, st).
Definition bind {A B} (m : M A) (k : A -> M B) : M B :=
  fun st =>
    match m st with
    | (Ok a, st') => k a st'
    | (Throw e, st') => (Throw e, st')
    end.

Declare Scope handler_scope.
Delimit Scope handler_scope with handler.
Notation "x <- m ;; k" := (bind m (fun x => k))
  (at level 61, m at next level, right associativity) : handler_scope.
Notation "m ;;; k" := (bind m (fun _ => k))
  (at level 61, right associativity) : handler_scope.
Open Scope handler_scope.

Definition warn (line : string) : M unit :=
  fun st => (Ok tt, mkState (componentDirs st) (context_components st)
                            (build_transpile st) (console st ++ [line])
                            (hookCalls st)).

Definition logHook (hook : string) : M unit :=
  fun st => (Ok tt, mkState (componentDirs st) (context_components st)
                            (build_transpile st) (console st)
                            (hookCalls st ++ [hook])).

Definition set_componentDirs (dirs : list value) : M unit :=
  fun st => (Ok tt, mkState dirs (context_components st)
                            (build_transpile st) (console st) (hookCalls st)).

Definition set_components (cs : list Component) : M unit :=
  fun st => (Ok tt, mkState (componentDirs st) cs
                            (build_transpile st) (console st) (hookCalls st)).

Definition push_transpile (paths : list value) : M unit :=
  fun st => (Ok tt, mkState (componentDirs st) (context_components st)
                            (build_transpile st ++ paths) (console st)
                            (hookCalls st)).

Definition read_componentDirs : M (list value) :=
  fun st => (Ok (componentDirs st), st).

Section mapM.
Variables A B : Type.
Variable f : A -> M B.
Fixpoint mapM (l : list A) : M (list B) :=
  match l with
  | [] => ret []
  | x :: l' =>
      y <- f x ;;
      ys <- mapM l' ;;
      ret (y :: ys)
  end.
End mapM.

(** The tests [d.enabled] and [d.transpile] and the read [d.path] on a
    resolved directory. *)
Definition enabled (d : value) : bool := truthy (get "enabled" (own_fields d)).
Definition transpiled (d : value) : bool := truthy (get "transpile" (own_fields d)).
Definition dir_path (d : value) : value := get "path" (own_fields d).

(** ** The handlers registered by [setup] *)

Section Setup.

Variable resolve : string -> string -> string.
Variable resolveAlias : string -> string.

(** [statSync(p).isDirectory()]; [None] when [statSync] throws. *)
Variable statSync : string -> option bool.

(** [Number(v)], used only for the [level] field. *)
Variable Number : value -> value.

(** [nuxt.options]: the layers as pairs of [config.components] and
    [config.srcDir], the extension list, the source root; and
    [componentOptions.global]. *)
Variable layers : list (value * string).
Variable options_extensions : value.
Variable srcDir : string.
Variable componentOptions_global : value.

(** The collaborators awaited by the handlers: the listeners of
    [components:dirs] and [components:extend], which may change the array
    they are given, the listeners of [builder:generateApp], and the
    scanner.  Each either returns or rejects. *)
Variable on_components_dirs : list value -> result (list value).
Variable on_components_extend : list Component -> result (list Component).
Variable on_generateApp : result unit.
Variable scanComponents : list value -> string -> result (list Component).

(** Line 11. *)
Definition isDirectory (p : string) : bool :=
  match statSync p with
  | Some d => d
  | None => false
  end.

(** Lines 34-38; an absent argument is [None]. *)
Definition getComponents (st : State) (mode : option Mode) : list Component :=
  match mode with
  | Some m =>
      if negb (Mode_eqb m all)
      then filter (fun c => same_mode (mode_of c) m || same_mode (mode_of c) all)
                  (context_components st)
      else context_components st
  | None => context_components st
  end.

(** [arr.map(e => e.replace(/^\./g, ''))] on the extension list. *)
Definition strip_extensions (v : value) : result (list string) :=
  let? items := as_array v in
  mapR (fun e => match e with
                 | VStr s => Ok (strip_leading_dot s)
                 | _ => Throw TypeError
                 end) items.

(** What [...(v)] spreads into an array literal: the items of an array, the
    characters of a string; anything else is not iterable. *)
Definition iterate (v : value) : result (list value) :=
  match v with
  | VArr items => Ok items
  | VStr s => Ok (map (fun c => VStr (String c EmptyString)) (list_ascii_of_string s))
  | _ => Throw TypeError
  end.

(** The callback of the [map] at lines 74-103. *)
Definition resolveDir (dir : value) : M value :=
  let dirOptions := if typeof_object dir then dir else VObj [("path", dir)] in
  path <- lift (prop "path" dirOptions) ;;
  path <- lift (match path with
                | VStr s => Ok s
                | _ => Throw TypeError
                end) ;;
  let dirPath := resolveAlias path in
  let opts := own_fields dirOptions in
  let transpile :=
    match get "transpile" opts with
    | VBool b => Some b
    | _ => None
    end in
  extensions <- lift (strip_extensions
                        (or_else (get "extensions" opts) options_extensions)) ;;
  let opts := set "level" (Number (or_else (get "level" opts) (VNum 0))) opts in
  let present := isDirectory dirPath in
  (if negb present && negb (DEFAULT_COMPONENTS_DIRS_RE_test path)
   then warn ("Components directory not found: `" ++ dirPath ++ "`")
   else ret tt) ;;;
  more_ignore <- lift (iterate (or_else (get "ignore" opts) (VArr []))) ;;
  ret (VObj
         (set "transpile"
            (VBool (match transpile with
                    | None => includes dirPath "node_modules"
                    | Some b => b
                    end))
         (set "ignore"
            (VArr (VStr "**/*{M,.m,-m}ixin.{js,ts,jsx,tsx}"
                   :: VStr "**/*.d.ts" :: more_ignore))
         (set "pattern"
            (or_else (get "pattern" opts)
                     (VStr ("**/*.{" ++ String.concat "," extensions ++ ",}")))
         (set "extensions" (VArr (map VStr extensions))
         (set "path" (VStr dirPath)
         (set "enabled" (VBool true)
         (spread [("global", componentOptions_global)] opts)))))))).

(** [dir.path.includes('node_modules')] on a resolved directory. *)
Definition in_node_modules (dir : value) : result bool :=
  let? p := prop "path" dir in
  match p with
  | VStr s => Ok (includes s "node_modules")
  | _ => Throw TypeError
  end.

(** The [app:resolve] handler, lines 66-111. *)
Definition app_resolve : M unit :=
  perLayer <- lift (mapR (fun layer => normalizeDirs resolve resolveAlias
                                         (fst layer) (snd layer)) layers) ;;
  let allDirs := flat perLayer in
  logHook "components:dirs" ;;;
  allDirs <- lift (on_components_dirs allDirs) ;;
  resolved <- mapM resolveDir (filter isPureObjectOrString allDirs) ;;
  set_componentDirs (filter enabled resolved) ;;;
  dirs <- read_componentDirs ;;
  outside <- lift (filterR (fun dir => let? b := in_node_modules dir in Ok (negb b)) dirs) ;;
  inside <- lift (filterR in_node_modules dirs) ;;
  set_componentDirs (outside ++ inside) ;;;
  dirs <- read_componentDirs ;;
  push_transpile (map dir_path (filter transpiled dirs)).

(** The [app:templates] handler, lines 134-138. *)
Definition app_templates : M unit :=
  dirs <- read_componentDirs ;;
  newComponents <- lift (scanComponents dirs srcDir) ;;
  logHook "components:extend" ;;;
  newComponents <- lift (on_components_extend newComponents) ;;
  set_components newComponents.

(** The [builder:watch] handler, lines 145-153.  [startsWith] is given the
    [path] of a tracked directory, which is a string for every directory that
    [app_resolve] stores; on any other value, which JavaScript would first
    turn into a string, the model stops with a [TypeError]. *)
Definition builder_watch (event path : string) : M unit :=
  if negb (existsb (String.eqb event) ["add"; "unlink"]) then ret tt
  else
    let fPath := resolve srcDir path in
    dirs <- read_componentDirs ;;
    found <- lift (findR (fun dir =>
                            let? p := prop "path" dir in
                            match p with
                            | VStr s => Ok (startsWith fPath s)
                            | _ => Throw TypeError
                            end) dirs) ;;
    match found with
    | Some dir =>
        if truthy dir
        then logHook "builder:generateApp" ;;; lift on_generateApp
        else ret tt
    | None => ret tt
    end.

(** The hooks this module listens to, and the dispatch to their
    handlers. *)
Inductive hook : Type :=
| AppResolve
| AppTemplates
| BuilderWatch (event path : string).

Definition handle (h : hook) : M unit :=
  match h with
  | AppResolve => app_resolve
  | AppTemplates => app_templates
  | BuilderWatch event path => builder_watch event path
  end.

(** The states the module can be in: the one [setup] leaves, and those a
    handler ends in, whether it returned or threw. *)
Inductive reachable (transpile0 : list value) : State -> Prop :=
| reach_initial : reachable transpile0 (initial transpile0)
| reach_step h st r st' :
    reachable transpile0 st -> handle h st = (r, st') -> reachable transpile0 st'.

End Setup.

(** ** A sample project

    A path resolver that joins a relative path onto an absolute root, no
    aliases, an empty file system, and collaborators that return what they
    are given: enough to run the handlers on concrete configurations. *)

Module Sample.

Definition resolve (cwd p : string) : string :=
  if String.prefix "/" p then p else cwd ++ "/" ++ p.

Definition resolveAlias (p : string) : string := p.

Definition statSync (p : string) : option bool := None.

Definition Number (v : value) : value :=
  match v with
  | VNum n => VNum n
  | _ => VNum 0
  end.

Definition extensions : value := VArr [VStr ".vue"; VStr "ts"].

Definition normalize (dir : value) (cwd : string) : result value :=
  normalizeDirs resolve resolveAlias dir cwd.

Definition run_resolve (layers : list (value * string)) : result unit * State :=
  app_resolve resolve resolveAlias statSync Number layers extensions
              VUndefined (fun dirs => Ok dirs) (initial []).

(** Two layers with the default configuration. *)
Definition two_layers : list (value * string) :=
  [(VBool true, "/app"); (VBool true, "/app/layers/base")].

(** One layer that configures a directory of its own, a package under
    [node_modules] and a directory with an explicit transpile flag. *)
Definition one_layer : list (value * string) :=
  [(VArr [VStr "lib/components";
          VStr "node_modules/ui/dist/components/base";
          VObj [("path", VStr "widgets"); ("transpile", VBool true)]], "/app")].

(** A state that tracks [/app/components], and the watch handler of a
    project rooted at [/app] whose [builder:generateApp] listeners
    return. *)
Definition tracking : State :=
  mkState [VObj [("path", VStr "/app/components")]] [] [] [] [].

Definition watch (event path : string) : result unit * State :=
  builder_watch resolve "/app" (Ok tt) event path tracking.

Definition Foo : Component := mkComponent "Foo" "/app/components/Foo.vue" (Some all).
Definition Bar : Component := mkComponent "Bar" "/app/components/Bar.client.vue" (Some client).
Definition Baz : Component := mkComponent "Baz" "/app/components/Baz.server.vue" (Some server).

Definition registry : State := mkState [] [Foo; Bar; Baz] [] [] [].

Definition failing_scan (dirs : list value) (srcDir : string)
  : result (list Component) := Throw (Rejected "scan failed").

Definition handle_with (scan : list value -> string -> result (list Component))
           (h : hook) (st : State) : result unit * State :=
  handle resolve resolveAlias statSync Number one_layer extensions "/app"
         VUndefined (fun dirs => Ok dirs) (fun cs => Ok cs) (Ok tt) scan h st.

End Sample.

(** ** Vocabulary of the properties *)

(** A descriptor is an object whose [path] is a string. *)
Definition is_descriptor (v : value) : bool :=
  match path_of v with
  | Ok _ => true
  | Throw _ => false
  end.

Definition depth_of (v : value) : nat :=
  match path_of v with
  | Ok p => path_depth p
  | Throw _ => 0
  end.

(** [a] may stand before [b]: it has at least as many path segments. *)
Definition deeper_first (a b : value) : Prop := (depth_of b <= depth_of a)%nat.

Definition sorted_by_depth (l : list value) : Prop := StronglySorted deeper_first l.

Definition deeper_firstb (a b : value) : bool := (depth_of b <=? depth_of a)%nat.

(** The same order, as a test that computes. *)
Fixpoint sorted_by_depthb (l : list value) : bool :=
  match l with
  | [] => true
  | x :: l' => forallb (deeper_firstb x) l' && sorted_by_depthb l'
  end.

(** A flat sequence of descriptors: an array, none of whose items is an
    array or anything but a descriptor. *)
Definition is_flat_sequence (v : value) : bool :=
  match v with
  | VArr items => forallb is_descriptor items
  | _ => false
  end.

(** The descriptors a normaliser result stands for, as a caller's [flat]
    sees them. *)
Definition descriptors (v : value) : list value := flat [v].

(** The configurations the schema accepts: [true] or nothing, a string, an
    object whose [path] is a string when it has one and whose [dirs], when
    present, lists strings and such objects, or a list of configurations. *)
Definition valid_entry (e : value) : bool :=
  match e with
  | VStr _ => true
  | VObj fs => match get "path" fs with
               | VStr _ | VUndefined => true
               | _ => false
               end
  | _ => false
  end.

Definition valid_object (fs : fields) : bool :=
  match get "dirs" fs with
  | VUndefined => valid_entry (VObj fs)
  | VArr items => forallb valid_entry items
  | _ => false
  end.

Fixpoint valid_config (v : value) : bool :=
  match v with
  | VUndefined | VBool true | VStr _ => true
  | VObj fs => valid_object fs
  | VArr items => forallb valid_config items
  | _ => false
  end.

(** Path resolution under [cwd] is plain concatenation for the two default
    directories, as it is for a normalised absolute source root. *)
Definition resolves_defaults_under (resolve : string -> string -> string)
           (cwd : string) : Prop :=
  resolve cwd "components/global" = (cwd ++ "/components/global")%string /\
  resolve cwd "components" = (cwd ++ "/components")%string.

(** The path of a resolved directory lies under [node_modules]. *)
Definition under_node_modules (d : value) : bool :=
  match dir_path d with
  | VStr s => includes s "node_modules"
  | _ => false
  end.

(** The directory [d] is a prefix of the file path [fPath]. *)
Definition tracks (fPath : string) (d : value) : bool :=
  match dir_path d with
  | VStr p => startsWith fPath p
  | _ => false
  end.

(** A computation that leaves a part of the state as it found it, however
    it ends. *)
Definition keeps {A X} (part : State -> X) (m : M A) : Prop :=
  forall st r st', m st = (r, st') -> part st' = part st.

(** What separates two states apart from the console. *)
Definition same_but_console (st st' : State) : Prop :=
  componentDirs st' = componentDirs st /\
  context_components st' = context_components st /\
  build_transpile st' = build_transpile st /\
  hookCalls st' = hookCalls st.

(** What [app:resolve] makes of one configured directory. *)
Section ResolverVocabulary.

Variable resolveAlias : string -> string.
Variable statSync : string -> option bool.

(** The [dirOptions] of line 75. *)
Definition options_of (dir : value) : fields :=
  own_fields (if typeof_object dir then dir else VObj [("path", dir)]).

Definition configured_path (dir : value) : value := get "path" (options_of dir).

Definition not_found_line (path : string) : string :=
  "Components directory not found: `" ++ resolveAlias path ++ "`".

(** The console lines the directory configured at [path] causes. *)
Definition not_found_warning (path : string) : list string :=
  if negb (isDirectory statSync (resolveAlias path)) &&
     negb (DEFAULT_COMPONENTS_DIRS_RE_test path)
  then [not_found_line path]
  else [].

Definition warnings_of (dir : value) : list string :=
  match configured_path dir with
  | VStr path => not_found_warning path
  | _ => []
  end.

(** [d] is the resolved directory of the configured [dir]: its path is the
    configured path with aliases resolved, it is enabled, and its transpile
    flag is the configured boolean if there is one and otherwise tells
    whether the resolved path contains [node_modules]. *)
Definition resolves_to (dir d : value) : Prop :=
  exists path,
    configured_path dir = VStr path /\
    dir_path d = VStr (resolveAlias path) /\
    enabled d = true /\
    get "transpile" (own_fields d) =
      VBool (match get "transpile" (options_of dir) with
             | VBool b => b
             | _ => under_node_modules d
             end).

End ResolverVocabulary.

(** The directories [app:resolve] sets out to resolve: those of all layers,
    as the [components:dirs] listeners leave them, that are objects or
    strings. *)
Definition configured_dirs (resolve : string -> string -> string)
           (resolveAlias : string -> string) (layers : list (value * string))
           (on_components_dirs : list value -> result (list value))
  : result (list value) :=
  let? perLayer := mapR (fun layer => normalizeDirs resolve resolveAlias
                                        (fst layer) (snd layer)) layers in
  let? hooked := on_components_dirs (flat perLayer) in
  Ok (filter isPureObjectOrString hooked).

(** The paths of the implicit default directories of the layers: those the
    normaliser gives for an absent configuration. *)
Definition implicit_default_paths (resolve : string -> string -> string)
           (resolveAlias : string -> string) (layers : list (value * string))
  : list value :=
  flat_map (fun layer =>
              match normalizeDirs resolve resolveAlias VUndefined (snd layer) with
              | Ok v => map dir_path (descriptors v)
              | Throw _ => []
              end) layers.

(** ** The bundler hooks

    The handlers of [vite:extendConfig], [webpack:config] and
    [prepare:types] (lines 122-131, 140-142 and 155-184).  A bundler
    configuration is what these handlers touch of it: its [name], the table
    [resolve.alias] and the list [plugins], which may be absent.  A plugin
    instance is the call that made it; the accessor [getComponents] every
    instance receives is the same closure and is left out. *)

Inductive bundler : Type := vite | webpack.

Inductive plugin : Type :=
| loaderPlugin (b : bundler) (sourcemap : value) (mode : Mode)
| TreeShakeTemplatePlugin (b : bundler) (sourcemap : value)
| other_plugin (id : string).

Record BundlerConfig : Type := mkConfig {
  config_name : value;             (* config.name *)
  resolve_alias : fields;          (* config.resolve.alias *)
  plugins : option (list plugin)   (* config.plugins *)
}.

Definition mode_name (m : Mode) : string :=
  match m with
  | client => "client"
  | server => "server"
  | all => "all"
  end.

(** [name === s] for a string literal [s]. *)
Definition name_is (name : value) (s : string) : bool :=
  match name with
  | VStr n => n =? s
  | _ => false
  end.

Section Bridges.

Variable resolve : string -> string -> string.

(** [nuxt.options.buildDir], [nuxt.options.sourcemap] and
    [nuxt.options.experimental.treeshakeClientOnly]. *)
Variable buildDir : string.
Variable sourcemap : value.
Variable treeshakeClientOnly : value.

(** [resolve(nuxt.options.buildDir, `components.${mode}.mjs`)]. *)
Definition components_file (m : Mode) : value :=
  VStr (resolve buildDir ("components." ++ mode_name m ++ ".mjs")).

Definition set_alias (m : Mode) (config : BundlerConfig) : BundlerConfig :=
  mkConfig (config_name config)
           (set "#components" (components_file m) (resolve_alias config))
           (plugins config).

(** Lines 122-125. *)
Definition vite_extendConfig_alias (config : BundlerConfig) (isClient : bool)
  : BundlerConfig :=
  let mode := if isClient then client else server in
  set_alias mode config.

(** Lines 126-131. *)
Definition webpack_config_alias (configs : list BundlerConfig) : list BundlerConfig :=
  map (fun config =>
         let mode := if name_is (config_name config) "server" then server else client in
         set_alias mode config) configs.

(** The body shared by lines 156-167 and 171-182: [config.plugins] is made
    a list if it is absent, the loader is pushed, and the tree-shaking
    plugin after it when the experimental flag is set. *)
Definition push_plugins (b : bundler) (m : Mode) (config : BundlerConfig)
  : BundlerConfig :=
  let existing := match plugins config with
                  | Some ps => ps
                  | None => []
                  end in
  let pushed := existing ++ [loaderPlugin b sourcemap m] in
  let pushed := if truthy treeshakeClientOnly
                then pushed ++ [TreeShakeTemplatePlugin b sourcemap]
                else pushed in
  mkConfig (config_name config) (resolve_alias config) (Some pushed).

(** Lines 155-168. *)
Definition vite_extendConfig_plugins (config : BundlerConfig) (isClient : bool)
  : BundlerConfig :=
  push_plugins vite (if isClient then client else server) config.

(** Lines 169-184. *)
Definition webpack_config_plugins (configs : list BundlerConfig) : list BundlerConfig :=
  map (fun config =>
         push_plugins webpack
                      (if name_is (config_name config) "client" then client else server)
                      config) configs.

(** What a configuration has become once the hook has called both of its
    handlers, in the order [setup] registered them. *)
Definition vite_extendConfig (config : BundlerConfig) (isClient : bool) : BundlerConfig :=
  vite_extendConfig_plugins (vite_extendConfig_alias config isClient) isClient.

Definition webpack_config (configs : list BundlerConfig) : list BundlerConfig :=
  webpack_config_plugins (webpack_config_alias configs).

(** Lines 140-142. *)
Definition prepare_types (references : list value) : list value :=
  references ++ [VObj [("path", VStr (resolve buildDir "components.d.ts"))]].

End Bridges.

(** The modes a configuration ends up with: that of the file its
    [#components] alias names, and those of its loader plugins. *)
Definition loader_modes (config : BundlerConfig) : list Mode :=
  flat_map (fun p => match p with
                     | loaderPlugin _ _ m => [m]
                     | _ => []
                     end)
           (match plugins config with Some ps => ps | None => [] end).

(** ** More vocabulary *)

(** The object has the key [k]. *)
Definition has_key (k : string) (fs : fields) : bool :=
  existsb (fun kv => fst kv =? k) fs.

(** The fields [app:resolve] computes itself. *)
Definition computed_fields : list string :=
  ["level"; "enabled"; "path"; "extensions"; "pattern"; "ignore"; "transpile"].

(** The descriptors of depth [n], in the order of the list. *)
Definition at_depth (n : nat) (l : list value) : list value :=
  filter (fun d => depth_of d =? n)%nat l.

(** A computation that only appends to a list held in the state, however
    it ends. *)
Definition grows {A X} (part : State -> list X) (m : M A) : Prop :=
  forall st r st', m st = (r, st') -> exists more, part st' = part st ++ more.

(** The state [st] with the lines [w] written to the console. *)
Definition logged (w : list string) (st : State) : State :=
  mkState (componentDirs st) (context_components st) (build_transpile st)
          (console st ++ w) (hookCalls st).

(** The order in which [app:resolve] stores resolved directories. *)
Definition node_modules_last (resolved : list value) : list value :=
  filter (fun d => negb (under_node_modules d)) resolved ++
  filter under_node_modules resolved.

(** A configuration of two bundler targets, one already carrying a
    plugin. *)
Module SampleBridges.

Definition client_config : BundlerConfig :=
  mkConfig (VStr "client") [("~", VStr "/app")] (Some [other_plugin "vue-loader"]).

Definition server_config : BundlerConfig :=
  mkConfig (VStr "server") [("~", VStr "/app")] None.

Definition unnamed_config : BundlerConfig :=
  mkConfig VUndefined [] None.

Definition bundled (configs : list BundlerConfig) : list BundlerConfig :=
  webpack_config Sample.resolve "/app/.nuxt" (VBool true) (VBool true) configs.

End SampleBridges.

(** ** Path resolution of pathe

    [resolve] is not part of this repository; the handlers and the
    normaliser take it as a parameter.  To run the normaliser on roots that
    are not in normal form, this is [resolve] of pathe for two arguments on
    paths without a drive letter or UNC prefix: the last absolute argument
    starts the
    result, the process directory if there is none; backslashes count as
    slashes; empty and [.] segments are dropped, [..] drops the segment
    before it; the result is absolute and has no trailing separator. *)

Module Pathe.

Definition isAbsolute (p : string) : bool :=
  match p with
  | String c _ => is_sep c
  | EmptyString => false
  end.

Definition step (stack : list string) (seg : string) : list string :=
  if (seg =? "") || (seg =? ".") then stack
  else if seg =? ".." then tl stack
  else seg :: stack.

Definition normalizeSegments (segs : list string) : list string :=
  rev (fold_left step segs []).

Definition resolve (process_cwd cwd p : string) : string :=
  let segs :=
    if isAbsolute p then split_sep p
    else if isAbsolute cwd then split_sep cwd ++ split_sep p
    else split_sep process_cwd ++ split_sep cwd ++ split_sep p in
  "/" ++ String.concat "/" (normalizeSegments segs).

End Pathe.

(** A segment that normalisation keeps. *)
Definition plain_segment (seg : string) : bool :=
  negb (seg =? "") && negb (seg =? ".") && negb (seg =? "..").

Fixpoint no_backslash (s : string) : bool :=
  match s with
  | EmptyString => true
  | String c s' => negb (c =? backslash)%char && no_backslash s'
  end.

(** A source root in normal form: absolute, written with slashes, at least
    one segment, no empty, [.] or [..] segment, hence no trailing slash. *)
Definition normalised_root (cwd : string) : bool :=
  match cwd with
  | String c rest =>
      (c =? "/")%char && no_backslash rest && forallb plain_segment (split_sep rest)
  | EmptyString => false
  end.

(** An entry of a [dirs] list as line 58 reads it: a string stands for the
    object with that [path]. *)
Definition as_entry (d : value) : value :=
  match d with
  | VStr s => VObj [("path", VStr s)]
  | _ => d
  end.

(** [l1] is [l2] with some items left out, the others in their order. *)
Inductive subsequence {A : Type} : list A -> list A -> Prop :=
| subsequence_nil : subsequence [] []
| subsequence_skip x l1 l2 : subsequence l1 l2 -> subsequence l1 (x :: l2)
| subsequence_keep x l1 l2 : subsequence l1 l2 -> subsequence (x :: l1) (x :: l2).

(** ** Facts about objects *)

Unset Implicit Arguments.

Lemma get_set_same k v fs : get k (set k v fs) = v.
Proof.
  induction fs as [|[k' v'] fs IH]; simpl.
  - now rewrite String.eqb_refl.
  - destruct (k' =? k) eqn:E; simpl.
    + now rewrite String.eqb_refl.
    + now rewrite E.
Qed.

Lemma get_set_other k k' v fs : (k' =? k) = false -> get k (set k' v fs) = get k fs.
Proof.
  intros Hne.
  induction fs as [|[k0 v0] fs IH]; simpl.
  - now rewrite Hne.
  - destruct (k0 =? k') eqn:E; simpl.
    + apply String.eqb_eq in E; subst k0. now rewrite Hne.
    + destruct (k0 =? k); auto.
Qed.

(** ** Facts about the result monad *)

Lemma rbind_ok A B (r : result A) (k : A -> result B) b :
  rbind r k = Ok b -> exists a, r = Ok a /\ k a = Ok b.
Proof. destruct r; simpl; [eauto | discriminate]. Qed.

Lemma mapR_app A B (f : A -> result B) l1 l2 :
  mapR f (l1 ++ l2) =
  let? a := mapR f l1 in let? b := mapR f l2 in Ok (a ++ b).
Proof.
  induction l1 as [|x l1 IH]; simpl.
  - destruct (mapR f l2); reflexivity.
  - destruct (f x); simpl; auto. rewrite IH.
    destruct (mapR f l1); simpl; auto.
    destruct (mapR f l2); reflexivity.
Qed.

Lemma mapR_Forall2 A B (f : A -> result B) l out :
  mapR f l = Ok out -> Forall2 (fun x y => f x = Ok y) l out.
Proof.
  revert out; induction l as [|x l IH]; simpl; intros out H.
  - injection H as <-. constructor.
  - apply rbind_ok in H as (y & Hy & H).
    apply rbind_ok in H as (ys & Hys & H).
    injection H as <-. constructor; auto.
Qed.

Lemma mapR_total A B (f : A -> result B) l :
  Forall (fun x => exists y, f x = Ok y) l -> exists out, mapR f l = Ok out.
Proof.
  induction 1 as [|x l [y Hy] _ [out IH]]; simpl; eauto.
  rewrite Hy, IH; simpl; eauto.
Qed.

Lemma filterR_app A (f : A -> result bool) l1 l2 :
  filterR f (l1 ++ l2) =
  let? a := filterR f l1 in let? b := filterR f l2 in Ok (a ++ b).
Proof.
  induction l1 as [|x l1 IH]; simpl.
  - destruct (filterR f l2); reflexivity.
  - destruct (f x) as [keep|]; simpl; auto. rewrite IH.
    destruct (filterR f l1); simpl; auto.
    destruct (filterR f l2); simpl; auto.
    now destruct keep.
Qed.

Lemma filterR_skip A (f : A -> result bool) l1 x l2 :
  f x = Ok false -> filterR f (l1 ++ x :: l2) = filterR f (l1 ++ l2).
Proof.
  intros Hx. rewrite !filterR_app. simpl. rewrite Hx. simpl.
  destruct (filterR f l1); simpl; auto.
  destruct (filterR f l2); reflexivity.
Qed.

Lemma filterR_total A (f : A -> result bool) (g : A -> bool) l :
  Forall (fun x => f x = Ok (g x)) l -> filterR f l = Ok (filter g l).
Proof.
  induction 1 as [|x l Hx _ IH]; simpl; auto.
  rewrite Hx, IH; simpl. reflexivity.
Qed.

(** ** Sorting by path depth *)

Lemma compare_descriptors a b :
  is_descriptor a = true -> is_descriptor b = true ->
  compareDirByPathLength a b = Ok (Z.of_nat (depth_of b) - Z.of_nat (depth_of a))%Z.
Proof.
  unfold is_descriptor, depth_of, compareDirByPathLength.
  destruct (path_of a), (path_of b); simpl; intros; congruence.
Qed.

Lemma sort_insert_spec x l :
  is_descriptor x = true ->
  Forall (fun d => is_descriptor d = true) l ->
  exists r, sort_insert x l = Ok r /\ Permutation (x :: l) r /\
            (sorted_by_depth l -> sorted_by_depth r).
Proof.
  intros Hx Hl. induction Hl as [|y l Hy Hl IH]; simpl.
  - exists [x]. repeat split; auto. intros _. repeat constructor.
  - rewrite (compare_descriptors _ _ Hx Hy); simpl.
    destruct (Z.leb_spec (Z.of_nat (depth_of y) - Z.of_nat (depth_of x)) 0) as [Hle|Hgt].
    + exists (x :: y :: l). repeat split; auto.
      intros Hs. constructor; auto.
      inversion Hs as [|? ? Hs' Hall]; subst.
      constructor; [unfold deeper_first; lia|].
      eapply Forall_impl; [|exact Hall].
      unfold deeper_first; intros; lia.
    + destruct IH as (r & -> & Hperm & Hsorted); simpl.
      exists (y :: r). repeat split.
      * rewrite perm_swap. now constructor.
      * intros Hs. inversion Hs as [|? ? Hs' Hall]; subst.
        constructor; [now apply Hsorted|].
        eapply Permutation_Forall; [exact Hperm|].
        constructor; auto. unfold deeper_first; lia.
Qed.

Lemma sort_dirs_spec l :
  Forall (fun d => is_descriptor d = true) l ->
  exists r, sort_dirs l = Ok r /\ Permutation l r /\ sorted_by_depth r.
Proof.
  induction 1 as [|x l Hx Hl (s & Hs & Hperm & Hsorted)]; simpl.
  - exists []. repeat split; constructor.
  - rewrite Hs; simpl.
    destruct (sort_insert_spec x s Hx) as (r & Hr & Hperm' & Hsorted').
    { eapply Permutation_Forall; eauto. }
    exists r. repeat split; auto.
    rewrite <- Hperm'. now constructor.
Qed.

(** The sort is stable: directories of one depth keep their order. *)
Lemma sort_insert_stable n x l r :
  sort_insert x l = Ok r ->
  filter (fun d => depth_of d =? n)%nat r = filter (fun d => depth_of d =? n)%nat (x :: l).
Proof.
  revert r; induction l as [|y l IH]; simpl; intros r H.
  - now injection H as <-.
  - apply rbind_ok in H as (c & Hc & H).
    destruct (c <=? 0)%Z eqn:Hle.
    + now injection H as <-.
    + apply rbind_ok in H as (r' & Hr' & H). injection H as <-.
      specialize (IH _ Hr'). simpl in *. rewrite IH.
      unfold compareDirByPathLength in Hc.
      apply rbind_ok in Hc as (pa & Hpa & Hc).
      apply rbind_ok in Hc as (pb & Hpb & Hc).
      injection Hc as <-. apply Z.leb_gt in Hle.
      assert (Hne : depth_of x <> depth_of y).
      { unfold depth_of; rewrite Hpa, Hpb; lia. }
      destruct (Nat.eqb_spec (depth_of y) n), (Nat.eqb_spec (depth_of x) n);
        auto; congruence.
Qed.

Lemma sort_dirs_stable n l r :
  sort_dirs l = Ok r ->
  filter (fun d => depth_of d =? n)%nat r = filter (fun d => depth_of d =? n)%nat l.
Proof.
  revert r; induction l as [|x l IH]; simpl; intros r H.
  - now injection H as <-.
  - apply rbind_ok in H as (s & Hs & H).
    rewrite (sort_insert_stable n _ _ _ H). simpl. now rewrite (IH _ Hs).
Qed.

Lemma sorted_by_depthb_spec l : sorted_by_depthb l = true <-> sorted_by_depth l.
Proof.
  unfold sorted_by_depth.
  induction l as [|x l IH]; simpl.
  - split; auto. constructor.
  - rewrite andb_true_iff, forallb_forall, IH. split.
    + intros [Hall Hs]. constructor; auto.
      apply Forall_forall. intros y Hy. apply Nat.leb_le. now apply Hall.
    + intros Hs. inversion Hs as [|? ? Hs' Hall]; subst. split; auto.
      intros y Hy. apply Nat.leb_le.
      rewrite Forall_forall in Hall. now apply Hall.
Qed.

(** ** The shape of what the normaliser returns *)

Section NormalizerFacts.

Variable resolve : string -> string -> string.
Variable resolveAlias : string -> string.

Lemma normalizeEntries_shape dir cwd v :
  normalizeEntries resolve resolveAlias dir cwd = Ok v ->
  exists out, v = VArr out /\ Forall (fun d => is_descriptor d = true) out.
Proof.
  unfold normalizeEntries. intros H.
  apply rbind_ok in H as (dirs_field & _ & H).
  apply rbind_ok in H as (entries & _ & H).
  apply rbind_ok in H as (dirs & _ & H).
  apply rbind_ok in H as (out & Hout & H).
  injection H as <-. exists out; split; auto.
  apply mapR_Forall2 in Hout.
  induction Hout as [|d y ds ys Hy _ IH]; constructor; auto.
  apply rbind_ok in Hy as (p & _ & Hy).
  apply rbind_ok in Hy as (r & Hr & Hy).
  injection Hy as <-.
  destruct p; try discriminate. injection Hr as <-.
  unfold is_descriptor, path_of. now rewrite get_set_same.
Qed.

(** An array comes back for everything but a string, which comes back as
    one descriptor on its own. *)
Lemma normalizeDirs_shape dir cwd v :
  normalizeDirs resolve resolveAlias dir cwd = Ok v ->
  is_descriptor v = true \/
  exists out, v = VArr out /\ Forall (fun d => is_descriptor d = true) out.
Proof.
  revert v. induction dir as [| |b|n|s|fs|items IH] using value_array_ind;
    simpl; intros v H.
  - injection H as <-. right. eexists; split; [reflexivity | repeat constructor].
  - injection H as <-. right. eexists; split; [reflexivity | constructor].
  - destruct b; simpl in H; injection H as <-; right;
      eexists; (split; [reflexivity | repeat constructor]).
  - destruct (n =? 0)%Z; simpl in H.
    + injection H as <-. right. eexists; split; [reflexivity | constructor].
    + right. eapply normalizeEntries_shape; eauto.
  - injection H as <-. now left.
  - right. eapply normalizeEntries_shape; eauto.
  - right.
    apply rbind_ok in H as (parts & Hparts & H).
    apply rbind_ok in H as (sorted & Hsorted & H).
    injection H as <-. eexists; split; eauto.
    assert (Hflat : Forall (fun d => is_descriptor d = true) (flat parts)).
    { apply mapR_Forall2 in Hparts. clear Hsorted.
      induction Hparts as [|d y ds ys Hy _ IH']; simpl; [constructor|].
      inversion IH as [|? ? IHd IHds]; subst.
      apply Forall_app; split; auto.
      destruct (IHd _ Hy) as [Hd | (out & -> & Hout)]; auto.
      destruct y; try discriminate; auto. }
    destruct (sort_dirs_spec _ Hflat) as (r & Hr & Hperm & _).
    rewrite Hr in Hsorted. injection Hsorted as <-.
    eapply Permutation_Forall; eauto.
Qed.

Lemma flat_parts_descriptors cwd items parts :
  mapR (fun d => normalizeDirs resolve resolveAlias d cwd) items = Ok parts ->
  Forall (fun d => is_descriptor d = true) (flat parts).
Proof.
  intros H. apply mapR_Forall2 in H.
  induction H as [|d y ds ys Hy _ IH]; simpl; [constructor|].
  apply Forall_app; split; auto.
  destruct (normalizeDirs_shape _ _ _ Hy) as [Hd | (out & -> & Hout)]; auto.
  destruct y; try discriminate; auto.
Qed.

Lemma normalizeDirs_descriptors dir cwd v :
  normalizeDirs resolve resolveAlias dir cwd = Ok v ->
  Forall (fun d => is_descriptor d = true) (descriptors v).
Proof.
  intros H. unfold descriptors; simpl. rewrite app_nil_r.
  destruct (normalizeDirs_shape _ _ _ H) as [Hd | (out & -> & Hout)]; auto.
  destruct v; try discriminate; auto.
Qed.

(** A list configuration comes back sorted, deepest paths first. *)
Lemma normalizeDirs_list_sorted items cwd v :
  normalizeDirs resolve resolveAlias (VArr items) cwd = Ok v ->
  exists out, v = VArr out /\
              Forall (fun d => is_descriptor d = true) out /\
              sorted_by_depth out.
Proof.
  simpl. intros H.
  apply rbind_ok in H as (parts & Hparts & H).
  apply rbind_ok in H as (sorted & Hsorted & H).
  injection H as <-. exists sorted. split; auto.
  destruct (sort_dirs_spec _ (flat_parts_descriptors _ _ _ Hparts))
    as (r & Hr & Hperm & Hs).
  rewrite Hr in Hsorted. injection Hsorted as <-. split; auto.
  eapply Permutation_Forall; eauto.
  eapply flat_parts_descriptors; eauto.
Qed.

(** An item that normalises to the empty list leaves no trace in a list
    configuration. *)
Lemma normalizeDirs_list_skip cwd e xs ys :
  normalizeDirs resolve resolveAlias e cwd = Ok (VArr []) ->
  normalizeDirs resolve resolveAlias (VArr (xs ++ e :: ys)) cwd =
  normalizeDirs resolve resolveAlias (VArr (xs ++ ys)) cwd.
Proof.
  intros He. simpl. rewrite !mapR_app. simpl. rewrite He. simpl.
  destruct (mapR _ xs) as [a|]; simpl; auto.
  destruct (mapR _ ys) as [b|]; simpl; auto.
  unfold flat. rewrite !flat_map_app. reflexivity.
Qed.

Lemma entries_total cwd entries :
  forallb valid_entry entries = true ->
  exists out,
    (let? dirs := filterR (fun _dir => let? p := prop "path" _dir in Ok (truthy p))
                    (map (fun d => match d with
                                   | VStr s => VObj [("path", VStr s)]
                                   | _ => d
                                   end) entries) in
     let? out := mapR (fun _dir =>
                         let? p := prop "path" _dir in
                         let? r := resolve_path resolve resolveAlias cwd p in
                         Ok (VObj (set "path" r (own_fields _dir)))) dirs in
     Ok (VArr out)) = Ok (VArr out).
Proof.
  induction entries as [|e entries IH]; simpl; intros H.
  - eexists; reflexivity.
  - apply andb_true_iff in H as [He Hes].
    destruct (IH Hes) as (out & Hout). clear IH.
    destruct (filterR _ _) as [dirs|] eqn:Hdirs; simpl in Hout; [|discriminate].
    destruct (mapR _ dirs) as [out'|] eqn:Hout'; simpl in Hout; [|discriminate].
    destruct e as [| | | |s|fs|]; simpl in He; try discriminate; simpl.
    + destruct (negb (s =? "")); simpl; rewrite ?Hout'; simpl; eauto.
    + destruct (get "path" fs) as [| | | |p| |] eqn:Hp; try discriminate; simpl.
      * rewrite Hout'; simpl; eauto.
      * destruct (negb (p =? "")); simpl; rewrite ?Hp; simpl;
          rewrite ?Hout'; simpl; eauto.
Qed.

(** Every accepted configuration is normalised without an exception. *)
Lemma normalizeDirs_total dir cwd :
  valid_config dir = true ->
  exists v, normalizeDirs resolve resolveAlias dir cwd = Ok v.
Proof.
  induction dir as [| |b|n|s|fs|items IH] using value_array_ind;
    simpl; intros Hv; try discriminate; eauto.
  - destruct b; [eauto | discriminate].
  - unfold normalizeEntries, valid_object in *. simpl.
    destruct (get "dirs" fs) as [| | | | | |es] eqn:Hd; try discriminate.
    + destruct (entries_total cwd [VObj fs]) as (out & Hout).
      { cbn [forallb]. now rewrite Hv. }
      simpl in *. eauto.
    + destruct (entries_total cwd es Hv) as (out & Hout).
      simpl in *. eauto.
  - assert (Hparts : exists parts,
               mapR (fun d => normalizeDirs resolve resolveAlias d cwd) items = Ok parts).
    { apply mapR_total. rewrite forallb_forall in Hv.
      rewrite Forall_forall in *. intros x Hx. apply IH; auto. }
    destruct Hparts as (parts & Hparts). rewrite Hparts. simpl.
    destruct (sort_dirs_spec _ (flat_parts_descriptors _ _ _ Hparts))
      as (r & -> & _). simpl. eauto.
Qed.

(** The two default descriptors, for a root under which path resolution is
    concatenation. *)
Lemma normalizeDirs_default cwd dir :
  dir = VBool true \/ dir = VUndefined ->
  resolves_defaults_under resolve cwd ->
  normalizeDirs resolve resolveAlias dir cwd =
  Ok (VArr [ VObj [("path", VStr (cwd ++ "/components/global")); ("global", VBool true)];
             VObj [("path", VStr (cwd ++ "/components"))] ]).
Proof.
  intros Hdir [Hglobal Hplain].
  destruct Hdir as [-> | ->]; simpl; now rewrite Hglobal, Hplain.
Qed.

(** Every accepted configuration other than a bare string is normalised to
    a flat sequence of descriptors. *)
Lemma normalizeDirs_flat_unless_string dir cwd :
  valid_config dir = true ->
  (forall s, dir <> VStr s) ->
  exists v, normalizeDirs resolve resolveAlias dir cwd = Ok v /\
            is_flat_sequence v = true.
Proof.
  intros Hv Hns.
  destruct (normalizeDirs_total dir cwd Hv) as (v & Hvv).
  exists v; split; auto.
  destruct (normalizeDirs_shape _ _ _ Hvv) as [Hd | (out & -> & Hout)].
  - destruct dir as [| |b|n|s|fs|items]; simpl in *; try discriminate.
    + injection Hvv as <-. discriminate.
    + destruct b; [|discriminate]. injection Hvv as <-. discriminate.
    + now elim (Hns s).
    + apply normalizeEntries_shape in Hvv as (out & -> & _). discriminate.
    + apply rbind_ok in Hvv as (parts & _ & Hvv).
      apply rbind_ok in Hvv as (sorted & _ & Hvv).
      injection Hvv as <-. discriminate.
  - simpl. apply forallb_forall. rewrite Forall_forall in Hout. auto.
Qed.

(** C3.  A string is an accepted configuration, and for it the normaliser
    returns the descriptor object itself, not a sequence holding it: the
    result is not an array.  (Every other accepted configuration gives a
    flat sequence, [normalizeDirs_flat_unless_string].) *)
Theorem normalizeDirs_string_is_bare s cwd :
  valid_config (VStr s) = true /\
  normalizeDirs resolve resolveAlias (VStr s) cwd =
    Ok (VObj [("path", VStr (resolve cwd (resolveAlias s)))]) /\
  isArray (VObj [("path", VStr (resolve cwd (resolveAlias s)))]) = false /\
  is_flat_sequence (VObj [("path", VStr (resolve cwd (resolveAlias s)))]) = false.
Proof. repeat split. Qed.

(** C9.  An object entry without a [path] is dropped by the normaliser
    without an exception: on its own it normalises to the empty list, as an
    item of a list configuration or of a [dirs] list it leaves the result
    as if it were absent; and every descriptor the normaliser returns has a
    string [path]. *)
Theorem pathless_entries_removed cwd e :
  get "path" e = VUndefined ->
  (get "dirs" e = VUndefined ->
     normalizeDirs resolve resolveAlias (VObj e) cwd = Ok (VArr []) /\
     forall xs ys,
       normalizeDirs resolve resolveAlias (VArr (xs ++ VObj e :: ys)) cwd =
       normalizeDirs resolve resolveAlias (VArr (xs ++ ys)) cwd) /\
  (forall fs es1 es2,
     get "dirs" fs = VArr (es1 ++ VObj e :: es2) ->
     normalizeDirs resolve resolveAlias (VObj fs) cwd =
     normalizeDirs resolve resolveAlias
       (VObj (set "dirs" (VArr (es1 ++ es2)) fs)) cwd) /\
  (forall dir v,
     normalizeDirs resolve resolveAlias dir cwd = Ok v ->
     Forall (fun d => is_descriptor d = true) (descriptors v)).
Proof.
  intros Hpath. split; [|split].
  - intros Hdirs.
    assert (He : normalizeDirs resolve resolveAlias (VObj e) cwd = Ok (VArr [])).
    { simpl. unfold normalizeEntries. simpl. rewrite Hdirs. simpl.
      rewrite Hpath. reflexivity. }
    split; auto. intros xs ys. now apply normalizeDirs_list_skip.
  - intros fs es1 es2 Hfs. simpl. unfold normalizeEntries. simpl.
    rewrite get_set_same, Hfs. simpl.
    rewrite !map_app. simpl.
    rewrite filterR_skip; [reflexivity|].
    simpl. now rewrite Hpath.
  - intros dir v. apply normalizeDirs_descriptors.
Qed.

(** C10.  A falsy configuration other than [undefined] and the empty string
    ([false], [null], [0]) normalises to the empty list, and as an item of
    a list configuration it contributes no descriptor: the result is that
    of the list without it. *)
Theorem falsy_config_contributes_nothing cwd dir :
  truthy dir = false -> dir <> VUndefined -> dir <> VStr "" ->
  normalizeDirs resolve resolveAlias dir cwd = Ok (VArr []) /\
  forall xs ys,
    normalizeDirs resolve resolveAlias (VArr (xs ++ dir :: ys)) cwd =
    normalizeDirs resolve resolveAlias (VArr (xs ++ ys)) cwd.
Proof.
  intros Hfalsy Hu Hs.
  assert (He : normalizeDirs resolve resolveAlias dir cwd = Ok (VArr [])).
  { destruct dir as [| |b|n|s|fs|items]; simpl in *; try congruence.
    - now subst b.
    - now rewrite Hfalsy.
    - apply negb_false_iff, String.eqb_eq in Hfalsy. congruence. }
  split; auto. intros xs ys. now apply normalizeDirs_list_skip.
Qed.

End NormalizerFacts.

Lemma pathless_entries_removed_witness :
  Sample.normalize (VArr [VStr "a"; VObj [("global", VBool true)]; VStr "b/c"]) "/app" =
  Sample.normalize (VArr [VStr "a"; VStr "b/c"]) "/app".
Proof.
  refine (proj2 (proj1 (pathless_entries_removed Sample.resolve Sample.resolveAlias
                          "/app" [("global", VBool true)] _) _) [VStr "a"] [VStr "b/c"]);
    reflexivity.
Defined.

Lemma falsy_config_contributes_nothing_witness :
  Sample.normalize VNull "/app" = Ok (VArr []) /\
  Sample.normalize (VArr [VStr "a"; VNull; VBool true]) "/app" =
  Sample.normalize (VArr [VStr "a"; VBool true]) "/app".
Proof.
  destruct (falsy_config_contributes_nothing Sample.resolve Sample.resolveAlias
              "/app" VNull) as [Hnil Hskip];
    [reflexivity | discriminate | discriminate |].
  split; [exact Hnil | exact (Hskip [VStr "a"] [VBool true])].
Defined.

(** ** Facts about lists *)

Lemma Forall2_In_r A B (R : A -> B -> Prop) l l' y :
  Forall2 R l l' -> In y l' -> exists x, In x l /\ R x y.
Proof.
  induction 1 as [|x y' l l' Hxy _ IH]; simpl; [tauto|].
  intros [<- | Hy]; [eauto|].
  destruct (IH Hy) as (x' & Hx' & HR); eauto.
Qed.

Lemma partitioned_tail A (f : A -> bool) l1 l2 before a rest :
  Forall (fun x => f x = false) l1 ->
  Forall (fun x => f x = true) l2 ->
  l1 ++ l2 = before ++ a :: rest ->
  f a = true ->
  Forall (fun x => f x = true) rest.
Proof.
  intros H1 H2. revert before.
  induction H1 as [|o l1 Ho _ IH]; simpl; intros before Heq Ha.
  - rewrite Heq in H2. apply Forall_app in H2 as [_ H2].
    now inversion H2.
  - destruct before as [|x before]; simpl in Heq; injection Heq as -> Heq.
    + congruence.
    + eapply IH; eauto.
Qed.

Lemma partition_Permutation A (f : A -> bool) l :
  Permutation l (filter (fun x => negb (f x)) l ++ filter f l).
Proof.
  induction l as [|x l IH]; simpl; auto.
  destruct (f x); simpl.
  - now apply Permutation_cons_app.
  - now constructor.
Qed.


(** ** Facts about strings *)

Lemma prefix_append p q : String.prefix p (p ++ q) = true.
Proof.
  induction p as [|c p IH]; simpl.
  - now destruct q.
  - destruct (Ascii.ascii_dec c c); [exact IH | congruence].
Qed.

Lemma string_append_assoc (a b c : string) :
  ((a ++ b) ++ c = a ++ (b ++ c))%string.
Proof. induction a as [|x a IH]; simpl; congruence. Qed.

Lemma string_rev_onto_acc s acc :
  string_rev_onto s acc = (string_rev_onto s "" ++ acc)%string.
Proof.
  revert acc; induction s as [|c s IH]; simpl; intros acc; auto.
  rewrite IH, (IH (String c "")).
  now rewrite string_append_assoc.
Qed.

Lemma string_rev_onto_append a b acc :
  string_rev_onto (a ++ b) acc = string_rev_onto b (string_rev_onto a acc).
Proof. revert acc; induction a as [|c a IH]; simpl; auto. Qed.

Lemma endsWith_append a b : endsWith (a ++ b) b = true.
Proof.
  unfold endsWith.
  rewrite string_rev_onto_append, (string_rev_onto_acc b (string_rev_onto a "")).
  apply prefix_append.
Qed.

(** The two default directories of a source root match
    [DEFAULT_COMPONENTS_DIRS_RE]. *)
Lemma default_paths_match_RE cwd :
  DEFAULT_COMPONENTS_DIRS_RE_test (cwd ++ "/components/global") = true /\
  DEFAULT_COMPONENTS_DIRS_RE_test (cwd ++ "/components") = true.
Proof.
  unfold DEFAULT_COMPONENTS_DIRS_RE_test. rewrite !endsWith_append.
  split; [apply orb_true_r | reflexivity].
Qed.

(** ** Running the handlers *)

Lemma bind_run A B (m : M A) (k : A -> M B) st r st' :
  bind m k st = (r, st') ->
  (exists e, m st = (Throw e, st') /\ r = Throw e) \/
  (exists a st1, m st = (Ok a, st1) /\ k a st1 = (r, st')).
Proof.
  unfold bind. destruct (m st) as [[a|e] st1]; intros H.
  - right; eauto.
  - injection H as <- <-. left; eauto.
Qed.

Lemma bind_ok A B (m : M A) (k : A -> M B) st b st' :
  bind m k st = (Ok b, st') ->
  exists a st1, m st = (Ok a, st1) /\ k a st1 = (Ok b, st').
Proof.
  intros H. apply bind_run in H as [(e & _ & He) | H]; [discriminate | exact H].
Qed.

Lemma lift_ok A (r : result A) st a st' :
  lift r st = (Ok a, st') -> r = Ok a /\ st' = st.
Proof. unfold lift. intros H. injection H as -> <-. auto. Qed.


Create HintDb registry.

Section SetupFacts.

Variable resolve : string -> string -> string.
Variable resolveAlias : string -> string.
Variable statSync : string -> option bool.
Variable Number : value -> value.
Variable layers : list (value * string).
Variable options_extensions : value.
Variable srcDir : string.
Variable componentOptions_global : value.
Variable on_components_dirs : list value -> result (list value).
Variable on_components_extend : list Component -> result (list Component).
Variable on_generateApp : result unit.
Variable scanComponents : list value -> string -> result (list Component).

Lemma resolveDir_ok dir st d st' :
  resolveDir resolveAlias statSync Number options_extensions
             componentOptions_global dir st = (Ok d, st') ->
  resolves_to resolveAlias dir d /\
  console st' = console st ++ warnings_of resolveAlias statSync dir /\
  same_but_console st st'.
Proof using Type.
  unfold resolveDir. intros H.
  apply bind_ok in H as (path0 & st1 & H1 & H). apply lift_ok in H1 as [Hp0 ->].
  apply bind_ok in H as (path & st1 & H1 & H). apply lift_ok in H1 as [Hp ->].
  apply bind_ok in H as (exts & st1 & H1 & H). apply lift_ok in H1 as [_ ->].
  apply bind_ok in H as ([] & st1 & Hwarn & H).
  apply bind_ok in H as (more & st2 & H1 & H). apply lift_ok in H1 as [_ ->].
  injection H as <- <-.
  destruct path0; try discriminate. injection Hp as ->.
  assert (Hcfg : configured_path dir = VStr path).
  { unfold configured_path, options_of.
    destruct (typeof_object dir) eqn:Ht.
    - destruct dir; simpl in *; try discriminate; congruence.
    - simpl in *. congruence. }
  split; [|split].
  - exists path. unfold dir_path, enabled, under_node_modules, dir_path. simpl.
    repeat (rewrite ?get_set_same;
            try (rewrite get_set_other by reflexivity)).
    repeat split; auto.
    fold (options_of dir).
    destruct (get "transpile" (options_of dir)); reflexivity.
  - unfold warnings_of. rewrite Hcfg. unfold not_found_warning, not_found_line.
    destruct (negb _ && negb _); simpl in Hwarn; injection Hwarn as <-; simpl.
    + reflexivity.
    + now rewrite app_nil_r.
  - destruct (negb _ && negb _); simpl in Hwarn; injection Hwarn as <-;
      repeat split.
Qed.

Lemma mapM_resolveDir_ok dirs st resolved st' :
  mapM (resolveDir resolveAlias statSync Number options_extensions
                   componentOptions_global) dirs st = (Ok resolved, st') ->
  Forall2 (resolves_to resolveAlias) dirs resolved /\
  console st' = console st ++ flat_map (warnings_of resolveAlias statSync) dirs /\
  same_but_console st st'.
Proof using Type.
  revert st resolved st'. induction dirs as [|dir dirs IH]; simpl; intros st resolved st' H.
  - injection H as <- <-. rewrite app_nil_r. repeat split. constructor.
  - apply bind_ok in H as (d & st1 & Hd & H).
    apply bind_ok in H as (ds & st2 & Hds & H).
    injection H as <- <-.
    apply resolveDir_ok in Hd as (Hd & Hc1 & F1 & F2 & F3 & F4).
    apply IH in Hds as (Hds & Hc2 & G1 & G2 & G3 & G4).
    split; [constructor; auto|]. split.
    + rewrite Hc2, Hc1. now rewrite app_assoc.
    + repeat split; congruence.
Qed.

Lemma resolved_in_node_modules dir d :
  resolves_to resolveAlias dir d ->
  in_node_modules d = Ok (under_node_modules d) /\ enabled d = true.
Proof using Type.
  intros (path & _ & Hpath & Hen & _). split; auto.
  unfold in_node_modules, under_node_modules. rewrite Hpath.
  destruct d; simpl in *; try discriminate.
  unfold dir_path in Hpath. simpl in Hpath. now rewrite Hpath.
Qed.

(** The course of a run of [app:resolve] that returns. *)
Lemma app_resolve_ok st st' :
  app_resolve resolve resolveAlias statSync Number layers options_extensions
              componentOptions_global on_components_dirs st = (Ok tt, st') ->
  exists configured resolved,
    configured_dirs resolve resolveAlias layers on_components_dirs = Ok configured /\
    Forall2 (resolves_to resolveAlias) configured resolved /\
    componentDirs st' =
      filter (fun d => negb (under_node_modules d)) resolved ++
      filter under_node_modules resolved /\
    console st' =
      console st ++ flat_map (warnings_of resolveAlias statSync) configured /\
    build_transpile st' =
      build_transpile st ++ map dir_path (filter transpiled (componentDirs st')) /\
    context_components st' = context_components st /\
    hookCalls st' = hookCalls st ++ ["components:dirs"].
Proof using Type.
  unfold app_resolve. intros H.
  apply bind_ok in H as (perLayer & st1 & H1 & H). apply lift_ok in H1 as [HperLayer ->].
  apply bind_ok in H as ([] & st1 & Hlog & H). injection Hlog as <-.
  apply bind_ok in H as (hooked & st1 & H1 & H). apply lift_ok in H1 as [Hhooked ->].
  apply bind_ok in H as (resolved & st1 & Hres & H).
  apply mapM_resolveDir_ok in Hres as (Hres & Hconsole & F1 & F2 & F3 & F4).
  simpl in Hconsole, F1, F2, F3, F4.
  assert (Hall : Forall (fun d => in_node_modules d = Ok (under_node_modules d) /\
                                  enabled d = true) resolved).
  { clear -Hres. induction Hres; constructor; auto.
    eapply resolved_in_node_modules; eauto. }
  assert (Hen : filter enabled resolved = resolved).
  { clear -Hall. induction Hall as [|d ds [_ Hd] _ IH]; simpl; auto.
    now rewrite Hd, IH. }
  apply bind_ok in H as ([] & st2 & Hset & H). injection Hset as <-.
  apply bind_ok in H as (dirs & st2 & Hread & H). injection Hread as <- <-.
  simpl in H. rewrite Hen in H.
  rewrite (filterR_total _ _ (fun d => negb (under_node_modules d)) resolved) in H.
  2:{ eapply Forall_impl; [|exact Hall]. intros d [-> _]. reflexivity. }
  rewrite (filterR_total _ _ under_node_modules resolved) in H.
  2:{ eapply Forall_impl; [|exact Hall]. now intros d [-> _]. }
  apply bind_ok in H as (outside & st2 & H1 & H). apply lift_ok in H1 as [Hout ->].
  apply bind_ok in H as (inside & st2 & H1 & H). apply lift_ok in H1 as [Hin ->].
  injection Hout as <-. injection Hin as <-.
  apply bind_ok in H as ([] & st2 & Hset & H). injection Hset as <-.
  apply bind_ok in H as (dirs & st2 & Hread & H). injection Hread as <- <-.
  injection H as <-. simpl.
  exists (filter isPureObjectOrString hooked), resolved.
  unfold configured_dirs. rewrite HperLayer. simpl. rewrite Hhooked. simpl.
  repeat split; auto; congruence.
Qed.

(** What [app:resolve] stores are descriptors. *)
Lemma app_resolve_stores_descriptors st st' :
  app_resolve resolve resolveAlias statSync Number layers options_extensions
              componentOptions_global on_components_dirs st = (Ok tt, st') ->
  Forall (fun d => is_descriptor d = true) (componentDirs st').
Proof using Type.
  intros H.
  apply app_resolve_ok in H as (configured & resolved & _ & Hres & -> & _).
  eapply Permutation_Forall; [apply partition_Permutation|].
  apply Forall_forall. intros d Hd.
  destruct (Forall2_In_r _ _ _ _ _ _ Hres Hd) as (dir & _ & path & _ & Hp & _).
  destruct d; try discriminate.
  unfold is_descriptor, path_of. unfold dir_path in Hp. simpl in Hp.
  now rewrite Hp.
Qed.

Lemma filterR_ok_filter A (f : A -> result bool) (g : A -> bool) l r :
  (forall x b, f x = Ok b -> b = g x) ->
  filterR f l = Ok r -> r = filter g l.
Proof using Type.
  intros Hfg. revert r. induction l as [|x l IH]; simpl; intros r H.
  - now injection H as <-.
  - apply rbind_ok in H as (keep & Hk & H).
    apply rbind_ok in H as (rest & Hrest & H).
    injection H as <-. rewrite (Hfg _ _ Hk), (IH _ Hrest). reflexivity.
Qed.

(** The descriptors of an object with a [dirs] list follow the list: one for
    each entry that has a path, in the order the entries are written. *)
Lemma normalizeDirs_dirs_in_order fs entries cwd v :
  get "dirs" fs = VArr entries ->
  normalizeDirs resolve resolveAlias (VObj fs) cwd = Ok v ->
  exists out,
    v = VArr out /\
    Forall2 (fun e d => exists p,
               dir_path e = VStr p /\
               dir_path d = VStr (resolve cwd (resolveAlias p)))
            (filter (fun e => truthy (dir_path e)) (map as_entry entries)) out.
Proof using Type.
  intros Hd H. simpl in H. unfold normalizeEntries in H. simpl in H.
  rewrite Hd in H. simpl in H.
  apply rbind_ok in H as (dirs & Hdirs & H).
  apply rbind_ok in H as (out & Hout & H).
  injection H as <-. exists out. split; [reflexivity|].
  apply (filterR_ok_filter _ _ (fun e => truthy (dir_path e))) in Hdirs.
  2:{ intros x b Hx. apply rbind_ok in Hx as (p & Hp & Hx). injection Hx as <-.
      unfold dir_path.
      destruct x; simpl in *; try discriminate; injection Hp as <-; reflexivity. }
  fold as_entry in Hdirs. rewrite <- Hdirs.
  apply mapR_Forall2 in Hout.
  eapply Forall2_impl; [|exact Hout].
  intros e d Hed. cbv beta in Hed.
  apply rbind_ok in Hed as (pv & Hpv & Hed).
  apply rbind_ok in Hed as (r & Hr & Hed).
  injection Hed as <-.
  destruct pv; try discriminate. injection Hr as <-.
  exists s. split.
  - unfold dir_path.
    destruct e; simpl in *; try discriminate; now injection Hpv as ->.
  - unfold dir_path. simpl. apply get_set_same.
Qed.

(** C2, as the code has it.  A list configuration is normalised to a
    sequence in order of non-increasing path depth.  An object with a [dirs]
    list is normalised to the descriptors of its entries in the order they
    are written.  [app:resolve] takes the sequences of the layers one after
    the other, in layer order, as the [components:dirs] listeners leave them,
    and stores the resolved directories outside [node_modules], in that
    order, followed by those under [node_modules], so that no directory
    outside [node_modules] stands after one under it. *)
Theorem directory_order items fs entries cwd v v' st st' :
  normalizeDirs resolve resolveAlias (VArr items) cwd = Ok v ->
  get "dirs" fs = VArr entries ->
  normalizeDirs resolve resolveAlias (VObj fs) cwd = Ok v' ->
  app_resolve resolve resolveAlias statSync Number layers options_extensions
              componentOptions_global on_components_dirs st = (Ok tt, st') ->
  (exists out, v = VArr out /\ sorted_by_depth out) /\
  (exists out',
     v' = VArr out' /\
     Forall2 (fun e d => exists p,
                dir_path e = VStr p /\
                dir_path d = VStr (resolve cwd (resolveAlias p)))
             (filter (fun e => truthy (dir_path e)) (map as_entry entries)) out') /\
  (exists perLayer hooked resolved,
     Forall2 (fun layer part =>
                normalizeDirs resolve resolveAlias (fst layer) (snd layer) = Ok part)
             layers perLayer /\
     on_components_dirs (flat perLayer) = Ok hooked /\
     Forall2 (fun dir d => exists path,
                configured_path dir = VStr path /\
                dir_path d = VStr (resolveAlias path))
             (filter isPureObjectOrString hooked) resolved /\
     componentDirs st' =
       filter (fun d => negb (under_node_modules d)) resolved ++
       filter under_node_modules resolved) /\
  (forall before a between b after,
     componentDirs st' = before ++ a :: between ++ b :: after ->
     under_node_modules a = true -> under_node_modules b = true).
Proof using Type.
  intros Hv Hd Hv' Hrun. split; [|split; [|split]].
  - destruct (normalizeDirs_list_sorted _ _ _ _ _ Hv) as (out & -> & _ & Hs). eauto.
  - eapply normalizeDirs_dirs_in_order; eauto.
  - apply app_resolve_ok in Hrun as (configured & resolved & Hcfg & Hres & Hdirs & _).
    unfold configured_dirs in Hcfg.
    apply rbind_ok in Hcfg as (perLayer & HperLayer & Hcfg).
    apply rbind_ok in Hcfg as (hooked & Hhooked & Hcfg).
    injection Hcfg as <-.
    exists perLayer, hooked, resolved. repeat split; auto.
    + now apply mapR_Forall2 in HperLayer.
    + eapply Forall2_impl; [|exact Hres].
      intros dir d (path & Hpath & Hp & _). eauto.
  - apply app_resolve_ok in Hrun as (_ & resolved & _ & _ & Hdirs & _).
    intros before a between b after Heq Ha.
    rewrite Hdirs in Heq.
    assert (Hrest : Forall (fun d => under_node_modules d = true)
                           (between ++ b :: after)).
    { eapply partitioned_tail; [| |exact Heq|exact Ha].
      - apply Forall_forall. intros d Hd'.
        apply filter_In in Hd' as [_ Hd']. now apply negb_true_iff.
      - apply Forall_forall. intros d Hd'. now apply filter_In in Hd'. }
    rewrite Forall_forall in Hrest. apply Hrest.
    apply in_or_app; right; now left.
Qed.

(** C6.  After [app:resolve], every stored directory comes from a
    configured one; its transpile flag is the configured [transpile] when
    that is a boolean, and otherwise tells whether its resolved path
    contains [node_modules]; and the paths of the stored directories whose
    flag is true, and only these, are appended to the project's transpile
    list. *)
Theorem transpile_flags st st' :
  app_resolve resolve resolveAlias statSync Number layers options_extensions
              componentOptions_global on_components_dirs st = (Ok tt, st') ->
  exists configured,
  configured_dirs resolve resolveAlias layers on_components_dirs = Ok configured /\
  (forall d, In d (componentDirs st') ->
     exists dir path,
       In dir configured /\
       configured_path dir = VStr path /\
       dir_path d = VStr (resolveAlias path) /\
       get "transpile" (own_fields d) =
         VBool (match get "transpile" (options_of dir) with
                | VBool b => b
                | _ => under_node_modules d
                end)) /\
  build_transpile st' =
    build_transpile st ++ map dir_path (filter transpiled (componentDirs st')) /\
  (forall d, In d (componentDirs st') -> transpiled d = true ->
             In (dir_path d) (build_transpile st')).
Proof using Type.
  intros H.
  apply app_resolve_ok in H
    as (configured & resolved & Hconf & Hres & Hdirs & _ & Htr & _).
  exists configured. split; [|split; [|split]]; auto.
  - intros d Hd. rewrite Hdirs in Hd.
    eapply Permutation_in in Hd;
      [|symmetry; apply partition_Permutation].
    destruct (Forall2_In_r _ _ _ _ _ _ Hres Hd)
      as (dir & Hin & path & Hcfg & Hp & _ & Ht).
    eauto 6.
  - intros d Hd Ht. rewrite Htr. apply in_or_app; right.
    apply in_map. now apply filter_In.
Qed.

(** C7, as the code has it.  [app:resolve] keeps every configured
    directory, and writes one console line for a directory exactly when
    [statSync] does not report a directory at its resolved path (a throwing
    [statSync] included) and its configured path ends neither in
    [/components] nor in [/components/global]. *)
Theorem missing_directory_warning st st' :
  app_resolve resolve resolveAlias statSync Number layers options_extensions
              componentOptions_global on_components_dirs st = (Ok tt, st') ->
  exists configured resolved,
    configured_dirs resolve resolveAlias layers on_components_dirs = Ok configured /\
    Forall2 (fun dir d => exists path,
               configured_path dir = VStr path /\
               dir_path d = VStr (resolveAlias path)) configured resolved /\
    Permutation resolved (componentDirs st') /\
    console st' = console st ++ flat_map (warnings_of resolveAlias statSync) configured /\
    (forall dir path,
       In dir configured -> configured_path dir = VStr path ->
       (isDirectory statSync (resolveAlias path) = false /\
        endsWith path "/components" = false /\
        endsWith path "/components/global" = false ->
        warnings_of resolveAlias statSync dir = [not_found_line resolveAlias path]) /\
       (isDirectory statSync (resolveAlias path) = true \/
        endsWith path "/components" = true \/
        endsWith path "/components/global" = true ->
        warnings_of resolveAlias statSync dir = [])) /\
    (forall p, statSync p = None -> isDirectory statSync p = false).
Proof using Type.
  intros H.
  apply app_resolve_ok in H
    as (configured & resolved & Hconf & Hres & Hdirs & Hconsole & _).
  exists configured, resolved.
  split; [|split; [|split; [|split; [|split]]]]; auto.
  - eapply Forall2_impl; [|exact Hres].
    intros dir d (path & Hcfg & Hp & _). eauto.
  - rewrite Hdirs. apply partition_Permutation.
  - intros dir path _ Hcfg. unfold warnings_of, not_found_warning.
    rewrite Hcfg. unfold DEFAULT_COMPONENTS_DIRS_RE_test. split.
    + intros (-> & -> & ->). reflexivity.
    + intros [-> | [-> | ->]]; simpl; rewrite ?orb_true_r, ?andb_false_r;
        reflexivity.
  - intros p Hp. unfold isDirectory. now rewrite Hp.
Qed.

(** ** The registry *)

Ltac frame := intros ? ? ? Hrun; now injection Hrun as _ <-.

Lemma keeps_ret A X (part : State -> X) (a : A) : keeps part (ret a).
Proof using Type. frame. Qed.

Lemma keeps_lift A X (part : State -> X) (r : result A) : keeps part (lift r).
Proof using Type. frame. Qed.

Lemma keeps_read_componentDirs X (part : State -> X) : keeps part read_componentDirs.
Proof using Type. frame. Qed.

Lemma keeps_bind A B X (part : State -> X) (m : M A) (k : A -> M B) :
  keeps part m -> (forall a, keeps part (k a)) -> keeps part (bind m k).
Proof using Type.
  intros Hm Hk st r st' H.
  apply bind_run in H as [(e & H & _) | (a & st1 & H & H')].
  - eapply Hm; eauto.
  - rewrite (Hk _ _ _ _ H'). eapply Hm; eauto.
Qed.

Lemma keeps_if A X (part : State -> X) (b : bool) (m1 m2 : M A) :
  keeps part m1 -> keeps part m2 -> keeps part (if b then m1 else m2).
Proof using Type. now destruct b. Qed.

Lemma warn_keeps_registry line : keeps context_components (warn line).
Proof using Type. frame. Qed.

Lemma warn_keeps_dirs line : keeps componentDirs (warn line).
Proof using Type. frame. Qed.

Lemma logHook_keeps_registry h : keeps context_components (logHook h).
Proof using Type. frame. Qed.

Lemma logHook_keeps_dirs h : keeps componentDirs (logHook h).
Proof using Type. frame. Qed.

Lemma push_transpile_keeps_registry paths :
  keeps context_components (push_transpile paths).
Proof using Type. frame. Qed.

Lemma set_componentDirs_keeps_registry dirs :
  keeps context_components (set_componentDirs dirs).
Proof using Type. frame. Qed.

#[local] Hint Resolve keeps_ret keeps_lift keeps_read_componentDirs keeps_bind
     keeps_if warn_keeps_registry warn_keeps_dirs logHook_keeps_registry
     logHook_keeps_dirs push_transpile_keeps_registry
     set_componentDirs_keeps_registry : registry.

Lemma keeps_mapM A B X (part : State -> X) (f : A -> M B) l :
  (forall x, keeps part (f x)) -> keeps part (mapM f l).
Proof using Type. intros Hf. induction l; simpl; auto 6 with registry. Qed.

Lemma resolveDir_keeps_registry dir :
  keeps context_components
        (resolveDir resolveAlias statSync Number options_extensions
                    componentOptions_global dir).
Proof using Type. unfold resolveDir. auto 15 with registry. Qed.

Lemma resolveDir_keeps_dirs dir :
  keeps componentDirs
        (resolveDir resolveAlias statSync Number options_extensions
                    componentOptions_global dir).
Proof using Type. unfold resolveDir. auto 15 with registry. Qed.

Lemma app_resolve_keeps_registry :
  keeps context_components
        (app_resolve resolve resolveAlias statSync Number layers
                     options_extensions componentOptions_global
                     on_components_dirs).
Proof using Type.
  unfold app_resolve.
  repeat (apply keeps_bind; [|intros ?]); auto with registry.
  apply keeps_mapM. apply resolveDir_keeps_registry.
Qed.

Lemma builder_watch_keeps_registry event path :
  keeps context_components (builder_watch resolve srcDir on_generateApp event path).
Proof using Type.
  unfold builder_watch. apply keeps_if; auto with registry.
  apply keeps_bind; auto with registry. intros dirs.
  apply keeps_bind; auto with registry. intros [d|]; auto with registry.
Qed.

Lemma builder_watch_keeps_dirs event path :
  keeps componentDirs (builder_watch resolve srcDir on_generateApp event path).
Proof using Type.
  unfold builder_watch. apply keeps_if; auto with registry.
  apply keeps_bind; auto with registry. intros dirs.
  apply keeps_bind; auto with registry. intros [d|]; auto with registry.
Qed.

(** The tail of [app:resolve], from the resolved directories on, returns. *)
Lemma app_resolve_tail resolved st :
  Forall (fun d => in_node_modules d = Ok (under_node_modules d) /\
                   enabled d = true) resolved ->
  exists st',
    (set_componentDirs (filter enabled resolved) ;;;
     dirs <- read_componentDirs ;;
     outside <- lift (filterR (fun dir => let? b := in_node_modules dir in
                                          Ok (negb b)) dirs) ;;
     inside <- lift (filterR in_node_modules dirs) ;;
     set_componentDirs (outside ++ inside) ;;;
     dirs <- read_componentDirs ;;
     push_transpile (map dir_path (filter transpiled dirs))) st = (Ok tt, st').
Proof using Type.
  intros Hall.
  assert (Hen : filter enabled resolved = resolved).
  { clear -Hall. induction Hall as [|d ds [_ Hd] _ IH]; simpl; auto.
    now rewrite Hd, IH. }
  unfold bind, set_componentDirs, read_componentDirs, lift. simpl.
  rewrite Hen.
  rewrite (filterR_total _ _ (fun d => negb (under_node_modules d)) resolved).
  2:{ eapply Forall_impl; [|exact Hall]. intros d [-> _]. reflexivity. }
  rewrite (filterR_total _ _ under_node_modules resolved).
  2:{ eapply Forall_impl; [|exact Hall]. now intros d [-> _]. }
  simpl. eexists. reflexivity.
Qed.

(** An [app:resolve] that throws has not touched the tracked
    directories. *)
Lemma app_resolve_throw st e st' :
  app_resolve resolve resolveAlias statSync Number layers options_extensions
              componentOptions_global on_components_dirs st = (Throw e, st') ->
  componentDirs st' = componentDirs st.
Proof using Type.
  unfold app_resolve. intros H.
  apply bind_run in H as [(e1 & H & _) | (perLayer & st1 & H1 & H)].
  { now injection H as _ <-. }
  injection H1 as _ <-.
  apply bind_run in H as [(e1 & H & _) | ([] & st1 & H1 & H)]; [discriminate|].
  injection H1 as <-.
  apply bind_run in H as [(e1 & H & _) | (hooked & st1 & H1 & H)].
  { now injection H as _ <-. }
  injection H1 as _ <-.
  apply bind_run in H as [(e1 & H & _) | (resolved & st1 & H1 & H)].
  { apply (keeps_mapM _ _ _ componentDirs _ _ resolveDir_keeps_dirs) in H.
    exact H. }
  exfalso.
  apply mapM_resolveDir_ok in H1 as (Hres & _).
  destruct (app_resolve_tail resolved st1) as (st2 & Htail).
  { clear -Hres. induction Hres; constructor; auto.
    eapply resolved_in_node_modules; eauto. }
  rewrite Htail in H. discriminate.
Qed.

Lemma app_templates_run st r st' :
  app_templates srcDir on_components_extend scanComponents st = (r, st') ->
  match scanComponents (componentDirs st) srcDir with
  | Throw e => r = Throw e /\ context_components st' = context_components st
  | Ok scanned =>
      match on_components_extend scanned with
      | Throw e => r = Throw e /\ context_components st' = context_components st
      | Ok extended => r = Ok tt /\ context_components st' = extended
      end
  end.
Proof using Type.
  unfold app_templates, bind, read_componentDirs, lift, logHook, set_components.
  destruct (scanComponents (componentDirs st) srcDir) as [scanned|e]; simpl.
  - destruct (on_components_extend scanned) as [extended|e]; simpl;
      intros H; injection H as <- <-; auto.
  - intros H; injection H as <- <-; auto.
Qed.

(** C8.  The registry is empty after [setup].  Only [app:templates] writes
    it: every other handler leaves it as it was.  [app:templates] that has
    the scanner and the [components:extend] listeners both return ends
    returning, with the registry being the list the listeners left, which is
    then what [getComponents] answers; when the scanner or the listeners
    throw, the handler throws the same exception and the registry is what it
    was.  After any handler that throws, [getComponents] answers what it
    answered before. *)
Theorem registry_replaced_wholesale transpile0 h st r st' :
  handle resolve resolveAlias statSync Number layers options_extensions srcDir
         componentOptions_global on_components_dirs on_components_extend
         on_generateApp scanComponents h st = (r, st') ->
  context_components (initial transpile0) = [] /\
  (h <> AppTemplates -> context_components st' = context_components st) /\
  (h = AppTemplates ->
     match scanComponents (componentDirs st) srcDir with
     | Throw e => r = Throw e /\ context_components st' = context_components st
     | Ok scanned =>
         match on_components_extend scanned with
         | Throw e => r = Throw e /\ context_components st' = context_components st
         | Ok extended =>
             r = Ok tt /\ context_components st' = extended /\
             getComponents st' None = extended
         end
     end) /\
  (forall e, r = Throw e ->
     context_components st' = context_components st /\
     forall mode, getComponents st' mode = getComponents st mode).
Proof using Type.
  intros H. split; [reflexivity|].
  assert (Hother : h <> AppTemplates ->
                   context_components st' = context_components st).
  { intros Hne. destruct h as [| |event path]; simpl in H.
    - eapply app_resolve_keeps_registry; eauto.
    - now elim Hne.
    - eapply builder_watch_keeps_registry; eauto. }
  assert (Htemplates :
            h = AppTemplates ->
            match scanComponents (componentDirs st) srcDir with
            | Throw e => r = Throw e /\ context_components st' = context_components st
            | Ok scanned =>
                match on_components_extend scanned with
                | Throw e => r = Throw e /\
                             context_components st' = context_components st
                | Ok extended =>
                    r = Ok tt /\ context_components st' = extended /\
                    getComponents st' None = extended
                end
            end).
  { intros ->. simpl in H. apply app_templates_run in H.
    destruct (scanComponents (componentDirs st) srcDir) as [scanned|e]; auto.
    destruct (on_components_extend scanned) as [extended|e]; auto.
    destruct H as [-> <-]. repeat split. }
  split; [exact Hother|]. split; [exact Htemplates|].
  intros e ->.
  assert (Hsame : context_components st' = context_components st).
  { destruct h as [| |event path]; try (apply Hother; discriminate).
    specialize (Htemplates eq_refl).
    destruct (scanComponents (componentDirs st) srcDir) as [scanned|e1];
      [|now destruct Htemplates].
    destruct (on_components_extend scanned) as [extended|e1];
      [|now destruct Htemplates].
    destruct Htemplates as [Hr _]. discriminate. }
  split; auto. intros mode. unfold getComponents. now rewrite Hsame.
Qed.

Lemma findR_tracks fPath dirs :
  Forall (fun d => is_descriptor d = true) dirs ->
  findR (fun dir => let? p := prop "path" dir in
                    match p with
                    | VStr s => Ok (startsWith fPath s)
                    | _ => Throw TypeError
                    end) dirs = Ok (find (tracks fPath) dirs).
Proof using Type.
  induction 1 as [|d dirs Hd _ IH]; simpl; auto.
  unfold is_descriptor, path_of in Hd. unfold tracks, dir_path.
  destruct d as [| | | | |fs|]; try discriminate. simpl.
  destruct (get "path" fs); try discriminate. simpl.
  destruct (startsWith fPath s); auto.
Qed.


(** X22.  In every state the module can reach, from the one [setup] leaves
    through any sequence of handlers that return or throw, each tracked
    directory is an object whose [path] is a string. *)
Lemma reachable_tracks_descriptors transpile0 st :
  reachable resolve resolveAlias statSync Number layers options_extensions srcDir
            componentOptions_global on_components_dirs on_components_extend
            on_generateApp scanComponents transpile0 st ->
  Forall (fun d => is_descriptor d = true) (componentDirs st).
Proof using Type.
  induction 1 as [|h st r st' _ IH Hstep]; [constructor|].
  destruct h as [| |event path]; simpl in Hstep.
  - destruct r as [[]|e].
    + eapply app_resolve_stores_descriptors; eauto.
    + apply app_resolve_throw in Hstep. now rewrite Hstep.
  - unfold app_templates, bind, read_componentDirs, lift, logHook, set_components in Hstep.
    destruct (scanComponents _ _); simpl in Hstep;
      [destruct (on_components_extend _); simpl in Hstep|];
      injection Hstep as _ <-; exact IH.
  - rewrite (builder_watch_keeps_dirs _ _ _ _ _ Hstep). exact IH.
Qed.

End SetupFacts.

(** C5.  Asked for [client] or [server], the accessor answers with the
    components of the registry whose mode is the one asked for or [all], in
    registry order; asked for [all] or for nothing, it answers with the
    registry itself. *)
Theorem getComponents_by_mode st m :
  m = client \/ m = server ->
  (exists keep : Component -> bool,
     (forall c, keep c = true <-> mode c = Some m \/ mode c = Some all) /\
     getComponents st (Some m) = filter keep (context_components st)) /\
  (forall c, In c (getComponents st (Some m)) <->
             In c (context_components st) /\ (mode c = Some m \/ mode c = Some all)) /\
  getComponents st (Some all) = context_components st /\
  getComponents st None = context_components st.
Proof.
  intros Hm.
  assert (Hkeep : forall c,
             same_mode (mode_of c) m || same_mode (mode_of c) all = true <->
             mode c = Some m \/ mode c = Some all).
  { intros c. unfold mode_of, same_mode. rewrite orb_true_iff.
    destruct (mode c) as [[]|]; destruct Hm as [-> | ->]; simpl;
      intuition congruence. }
  assert (Hget : getComponents st (Some m) =
                 filter (fun c => same_mode (mode_of c) m || same_mode (mode_of c) all)
                        (context_components st)).
  { unfold getComponents. now destruct Hm as [-> | ->]. }
  split; [|split; [|split]]; try reflexivity.
  - eexists; split; [exact Hkeep | exact Hget].
  - intros c. rewrite Hget, filter_In, Hkeep. reflexivity.
Qed.

(** ** The claims on the sample project *)

Lemma directory_order_witness :
  Sample.normalize (VArr [VStr "a"; VStr "a/b/c"]) "/app" =
    Ok (VArr [VObj [("path", VStr "/app/a/b/c")]; VObj [("path", VStr "/app/a")]]) /\
  Sample.normalize (VObj [("dirs", VArr [VStr "a"; VStr "a/b/c"])]) "/app" =
    Ok (VArr [VObj [("path", VStr "/app/a")]; VObj [("path", VStr "/app/a/b/c")]]) /\
  Sample.run_resolve Sample.one_layer = (Ok tt, snd (Sample.run_resolve Sample.one_layer)) /\
  sorted_by_depth [VObj [("path", VStr "/app/a/b/c")]; VObj [("path", VStr "/app/a")]] /\
  map dir_path (componentDirs (snd (Sample.run_resolve Sample.one_layer))) =
    [VStr "/app/lib/components"; VStr "/app/widgets";
     VStr "/app/node_modules/ui/dist/components/base"].
Proof.
  assert (Hn : Sample.normalize (VArr [VStr "a"; VStr "a/b/c"]) "/app" =
               Ok (VArr [VObj [("path", VStr "/app/a/b/c")];
                         VObj [("path", VStr "/app/a")]])) by reflexivity.
  assert (Ho : Sample.normalize (VObj [("dirs", VArr [VStr "a"; VStr "a/b/c"])]) "/app" =
               Ok (VArr [VObj [("path", VStr "/app/a")];
                         VObj [("path", VStr "/app/a/b/c")]])) by reflexivity.
  assert (Hr : Sample.run_resolve Sample.one_layer =
               (Ok tt, snd (Sample.run_resolve Sample.one_layer))) by reflexivity.
  destruct (directory_order Sample.resolve Sample.resolveAlias Sample.statSync
              Sample.Number Sample.one_layer Sample.extensions VUndefined
              (fun dirs => Ok dirs) _ [("dirs", VArr [VStr "a"; VStr "a/b/c"])]
              [VStr "a"; VStr "a/b/c"] _ _ _ _ _ Hn eq_refl Ho Hr)
    as ((out & Hout & Hsorted) & _ & _).
  injection Hout as <-.
  split; [exact Hn|]. split; [exact Ho|]. split; [exact Hr|].
  split; [exact Hsorted | reflexivity].
Defined.

(** C2 fails as stated: the directories of two layers with the default
    configuration are stored layer after layer, a shallower one before a
    deeper one; and the [dirs] list of an object configuration is normalised
    in the order it is written. *)
Lemma directory_order_counterexample :
  (exists st',
     Sample.run_resolve Sample.two_layers = (Ok tt, st') /\
     map dir_path (componentDirs st') =
       [VStr "/app/components/global"; VStr "/app/components";
        VStr "/app/layers/base/components/global"; VStr "/app/layers/base/components"] /\
     ~ sorted_by_depth (componentDirs st')) /\
  (exists out,
     Sample.normalize (VObj [("dirs", VArr [VStr "a"; VStr "a/b/c"])]) "/app" =
       Ok (VArr out) /\
     out = [VObj [("path", VStr "/app/a")]; VObj [("path", VStr "/app/a/b/c")]] /\
     ~ sorted_by_depth out).
Proof.
  split.
  - exists (snd (Sample.run_resolve Sample.two_layers)).
    split; [reflexivity|]. split; [reflexivity|].
    intros Hs. apply sorted_by_depthb_spec in Hs. discriminate.
  - eexists. split; [vm_compute; reflexivity|]. split; [reflexivity|].
    intros Hs. apply sorted_by_depthb_spec in Hs. discriminate.
Qed.

Lemma transpile_flags_witness :
  Sample.run_resolve Sample.one_layer = (Ok tt, snd (Sample.run_resolve Sample.one_layer)) /\
  build_transpile (snd (Sample.run_resolve Sample.one_layer)) =
    [VStr "/app/widgets"; VStr "/app/node_modules/ui/dist/components/base"].
Proof.
  assert (Hr : Sample.run_resolve Sample.one_layer =
               (Ok tt, snd (Sample.run_resolve Sample.one_layer))) by reflexivity.
  split; [exact Hr|].
  destruct (transpile_flags Sample.resolve Sample.resolveAlias Sample.statSync
              Sample.Number Sample.one_layer Sample.extensions VUndefined
              (fun dirs => Ok dirs) _ _ Hr) as (configured & _ & _ & Hlist & _).
  rewrite Hlist. reflexivity.
Defined.

Lemma missing_directory_warning_witness :
  Sample.run_resolve Sample.one_layer = (Ok tt, snd (Sample.run_resolve Sample.one_layer)) /\
  forall p, isDirectory Sample.statSync p = false.
Proof.
  assert (Hr : Sample.run_resolve Sample.one_layer =
               (Ok tt, snd (Sample.run_resolve Sample.one_layer))) by reflexivity.
  split; [exact Hr|].
  destruct (missing_directory_warning Sample.resolve Sample.resolveAlias Sample.statSync
              Sample.Number Sample.one_layer Sample.extensions VUndefined
              (fun dirs => Ok dirs) _ _ Hr) as (_ & _ & _ & _ & _ & _ & _ & Hstat).
  intros p. now apply Hstat.
Defined.

(** C7 fails as stated: the layer rooted at [/app] configures
    [lib/components]; nothing is a directory in the sample file system, and
    the directory is not one of the layer's implicit defaults, yet no line is
    written for it, while the directory is kept. *)
Lemma missing_directory_warning_counterexample :
  let layers := [(VArr [VStr "lib/components"], "/app")] in
  exists st',
    Sample.run_resolve layers = (Ok tt, st') /\
    map dir_path (componentDirs st') = [VStr "/app/lib/components"] /\
    isDirectory Sample.statSync "/app/lib/components" = false /\
    implicit_default_paths Sample.resolve Sample.resolveAlias layers =
      [VStr "/app/components/global"; VStr "/app/components"] /\
    ~ In (VStr "/app/lib/components")
         (implicit_default_paths Sample.resolve Sample.resolveAlias layers) /\
    console st' = [].
Proof.
  exists (snd (Sample.run_resolve [(VArr [VStr "lib/components"], "/app")])).
  split; [reflexivity|]. repeat split.
  simpl. intros [H | [H | []]]; discriminate.
Qed.

Lemma getComponents_by_mode_witness :
  getComponents Sample.registry (Some client) = [Sample.Foo; Sample.Bar] /\
  getComponents Sample.registry (Some all) = [Sample.Foo; Sample.Bar; Sample.Baz].
Proof.
  destruct (getComponents_by_mode Sample.registry client (or_introl eq_refl))
    as (_ & _ & Hall & _).
  split; [reflexivity | exact Hall].
Defined.


Lemma registry_replaced_wholesale_witness :
  Sample.handle_with Sample.failing_scan AppTemplates Sample.registry =
    (Throw (Rejected "scan failed"), Sample.registry) /\
  (forall mode,
     getComponents (snd (Sample.handle_with Sample.failing_scan AppTemplates
                                            Sample.registry)) mode =
     getComponents Sample.registry mode) /\
  context_components
    (snd (Sample.handle_with (fun _ _ => Ok [Sample.Bar]) AppTemplates Sample.registry)) =
    [Sample.Bar].
Proof.
  assert (Hrun : Sample.handle_with Sample.failing_scan AppTemplates Sample.registry =
                 (Throw (Rejected "scan failed"), Sample.registry)) by reflexivity.
  split; [exact Hrun|]. split.
  - destruct (registry_replaced_wholesale Sample.resolve Sample.resolveAlias
                Sample.statSync Sample.Number Sample.one_layer Sample.extensions "/app"
                VUndefined (fun dirs => Ok dirs) (fun cs => Ok cs) (Ok tt)
                Sample.failing_scan [] AppTemplates Sample.registry _ _ Hrun)
      as (_ & _ & _ & Hthrow).
    destruct (Hthrow _ eq_refl) as [_ Hget]. exact Hget.
  - destruct (registry_replaced_wholesale Sample.resolve Sample.resolveAlias
                Sample.statSync Sample.Number Sample.one_layer Sample.extensions "/app"
                VUndefined (fun dirs => Ok dirs) (fun cs => Ok cs) (Ok tt)
                (fun _ _ => Ok [Sample.Bar]) [] AppTemplates Sample.registry _ _
                (surjective_pairing _))
      as (_ & _ & Hassign & _).
    exact (proj1 (proj2 (Hassign eq_refl))).
Defined.

(** ** Further properties of the module

    What follows covers the parts of the module beyond the statements above:
    the path arithmetic behind the comparator, the sort, the error paths of
    the normaliser and of [app:resolve], the fields of a resolved directory,
    and the bundler hooks. *)

(** *** Paths *)

Lemma split_sep_nonempty s : split_sep s <> [].
Proof.
  destruct s as [|c s]; simpl; [discriminate|].
  destruct (is_sep c); [discriminate|].
  destruct (split_sep s); discriminate.
Qed.

Lemma split_sep_join a c b :
  is_sep c = true ->
  split_sep (a ++ String c b) = split_sep a ++ split_sep b.
Proof.
  intros Hc. induction a as [|x a IH]; simpl.
  - now rewrite Hc.
  - rewrite IH. destruct (is_sep x); [reflexivity|].
    destruct (split_sep a) as [|seg segs] eqn:Ha; [|reflexivity].
    now elim (split_sep_nonempty a).
Qed.

(** X1.  The depth of a path is additive over a separator: the depth of
    [a], a slash or backslash, then [b] is the depth of [a] plus that of
    [b].  So a trailing or doubled separator adds nothing, and a directory
    below another is deeper by the number of segments between them. *)
Theorem path_depth_join a c b :
  is_sep c = true ->
  path_depth (a ++ String c b) = (path_depth a + path_depth b)%nat.
Proof.
  intros Hc. unfold path_depth.
  now rewrite (split_sep_join _ _ _ Hc), filter_app, length_app.
Qed.

Lemma path_depth_join_witness :
  path_depth ("/app/layers" ++ String "/" "base/components") = 4%nat.
Proof.
  rewrite (path_depth_join "/app/layers" "/" "base/components" eq_refl).
  reflexivity.
Defined.

Lemma prefix_inv p s : String.prefix p s = true -> exists q, s = (p ++ q)%string.
Proof.
  revert s; induction p as [|c p IH]; intros s H.
  - exists s. reflexivity.
  - destruct s as [|c' s]; simpl in H; [discriminate|].
    destruct (Ascii.ascii_dec c c') as [<-|]; [|discriminate].
    destruct (IH _ H) as (q & ->). exists q. reflexivity.
Qed.

Lemma includes_prefix s needle :
  String.prefix needle s = true -> includes s needle = true.
Proof. destruct s; unfold includes; intros ->; reflexivity. Qed.

Lemma includes_append a needle b : includes (a ++ needle ++ b) needle = true.
Proof.
  induction a as [|c a IH].
  - change ("" ++ needle ++ b)%string with (needle ++ b)%string.
    apply includes_prefix. apply prefix_append.
  - simpl. rewrite IH. apply orb_true_r.
Qed.

Lemma includes_inv s needle :
  includes s needle = true -> exists a b, s = (a ++ needle ++ b)%string.
Proof.
  induction s as [|c s IH]; intros H.
  - change (includes "" needle) with (String.prefix needle "" || false) in H.
    rewrite orb_false_r in H. apply prefix_inv in H as (q & Hq).
    exists "", q. exact Hq.
  - change (includes (String c s) needle)
      with (String.prefix needle (String c s) || includes s needle) in H.
    apply orb_true_iff in H as [H | H].
    + apply prefix_inv in H as (q & Hq). exists "", q. exact Hq.
    + destruct (IH H) as (a & b & ->). exists (String c a), b. reflexivity.
Qed.

(** X2.  Whether a resolved directory counts as lying under [node_modules]
    is a matter of its path containing these letters anywhere: it does
    exactly when the path is some text, then [node_modules], then some
    text, whether or not that is a whole path segment. *)
Theorem under_node_modules_iff d :
  under_node_modules d = true <->
  exists a b, dir_path d = VStr (a ++ "node_modules" ++ b).
Proof.
  unfold under_node_modules. split.
  - destruct (dir_path d); try discriminate.
    intros H. apply includes_inv in H as (a & b & ->). eauto.
  - intros (a & b & ->). apply includes_append.
Qed.

Lemma string_rev_cons c s :
  string_rev_onto (String c s) "" = (string_rev_onto s "" ++ String c "")%string.
Proof. simpl. apply string_rev_onto_acc. Qed.

Lemma string_rev_app a b :
  string_rev_onto (a ++ b) "" = (string_rev_onto b "" ++ string_rev_onto a "")%string.
Proof.
  rewrite string_rev_onto_append. apply string_rev_onto_acc.
Qed.

Lemma string_rev_involutive s : string_rev_onto (string_rev_onto s "") "" = s.
Proof.
  induction s as [|c s IH]; [reflexivity|].
  rewrite string_rev_cons, string_rev_app, IH. reflexivity.
Qed.

Lemma endsWith_inv s suf : endsWith s suf = true -> exists a, s = (a ++ suf)%string.
Proof.
  unfold endsWith. intros H. apply prefix_inv in H as (q & Hq).
  exists (string_rev_onto q "").
  rewrite <- (string_rev_involutive s), Hq, string_rev_app, string_rev_involutive.
  reflexivity.
Qed.

(** X3.  [DEFAULT_COMPONENTS_DIRS_RE] accepts a path exactly when the path
    ends in [/components] or in [/components/global], whatever comes
    before. *)
Theorem DEFAULT_COMPONENTS_DIRS_RE_iff p :
  DEFAULT_COMPONENTS_DIRS_RE_test p = true <->
  exists a, p = (a ++ "/components")%string \/ p = (a ++ "/components/global")%string.
Proof.
  unfold DEFAULT_COMPONENTS_DIRS_RE_test. rewrite orb_true_iff. split.
  - intros [H | H]; apply endsWith_inv in H as (a & ->); eauto.
  - intros (a & [-> | ->]); [left | right]; apply endsWith_append.
Qed.

(** *** The sort of a list configuration *)

Lemma at_depth_app n l1 l2 : at_depth n (l1 ++ l2) = at_depth n l1 ++ at_depth n l2.
Proof. apply filter_app. Qed.

Lemma at_depth_head x l : at_depth (depth_of x) (x :: l) = x :: at_depth (depth_of x) l.
Proof. unfold at_depth. simpl. now rewrite Nat.eqb_refl. Qed.

Lemma at_depth_In n x l : In x (at_depth n l) -> In x l.
Proof. unfold at_depth. intros H. now apply filter_In in H. Qed.

(** Two lists sorted by depth with the same descriptors at each depth, in
    the same order, are the same list. *)
Lemma stable_sorted_unique l1 l2 :
  sorted_by_depth l1 -> sorted_by_depth l2 ->
  (forall n, at_depth n l1 = at_depth n l2) ->
  l1 = l2.
Proof.
  intros H1. revert l2. induction H1 as [|x l1 Hs1 IH Hx]; intros l2 H2 Heq.
  - destruct l2 as [|y l2]; [reflexivity|].
    specialize (Heq (depth_of y)). rewrite at_depth_head in Heq. discriminate.
  - destruct H2 as [|y l2 Hs2 Hy].
    + specialize (Heq (depth_of x)). rewrite at_depth_head in Heq. discriminate.
    + assert (Hxy : (depth_of x <= depth_of y)%nat).
      { assert (Hin : In x (y :: l2)).
        { apply (at_depth_In (depth_of x)). rewrite <- Heq, at_depth_head. now left. }
        destruct Hin as [-> | Hin]; [lia|].
        rewrite Forall_forall in Hy. apply (Hy _ Hin). }
      assert (Hyx : (depth_of y <= depth_of x)%nat).
      { assert (Hin : In y (x :: l1)).
        { apply (at_depth_In (depth_of y)). rewrite Heq, at_depth_head. now left. }
        destruct Hin as [-> | Hin]; [lia|].
        rewrite Forall_forall in Hx. apply (Hx _ Hin). }
      assert (Hd : depth_of x = depth_of y) by lia.
      assert (Hhead : x = y).
      { pose proof (Heq (depth_of x)) as E.
        rewrite at_depth_head, Hd, at_depth_head in E. now injection E. }
      subst y. f_equal. apply IH; auto.
      intros n. specialize (Heq n). unfold at_depth in *. simpl in Heq.
      destruct (depth_of x =? n)%nat; [now injection Heq | exact Heq].
Qed.

Section SortFacts.

Variable resolve : string -> string -> string.
Variable resolveAlias : string -> string.

(** X4.  What a list configuration normalises to is a rearrangement of the
    descriptors of its items, taken item by item: nothing is lost or added,
    and descriptors of equal depth keep the order they were written in. *)
Theorem normalizeDirs_list_stable items cwd v :
  normalizeDirs resolve resolveAlias (VArr items) cwd = Ok v ->
  exists parts out,
    mapR (fun d => normalizeDirs resolve resolveAlias d cwd) items = Ok parts /\
    v = VArr out /\
    Permutation (flat parts) out /\
    forall n, at_depth n out = at_depth n (flat parts).
Proof using Type.
  simpl. intros H.
  apply rbind_ok in H as (parts & Hparts & H).
  apply rbind_ok in H as (out & Hout & H).
  injection H as <-. exists parts, out. repeat split; auto.
  - destruct (sort_dirs_spec _ (flat_parts_descriptors _ _ _ _ _ Hparts))
      as (r & Hr & Hperm & _).
    rewrite Hr in Hout. now injection Hout as <-.
  - intros n. now apply sort_dirs_stable.
Qed.

(** X5.  Nesting is immaterial in a list configuration: a list written as an
    item of a list gives the same result, or the same exception, as its
    items written in its place. *)
Theorem normalizeDirs_nested_list xs ys zs cwd :
  normalizeDirs resolve resolveAlias (VArr (xs ++ VArr ys :: zs)) cwd =
  normalizeDirs resolve resolveAlias (VArr (xs ++ ys ++ zs)) cwd.
Proof using Type.
  cbn [normalizeDirs]. rewrite !mapR_app. cbn [mapR].
  destruct (mapR _ xs) as [px|e] eqn:Hx; [|reflexivity]. cbn [rbind].
  cbn [normalizeDirs].
  destruct (mapR _ ys) as [py|e] eqn:Hy; [|reflexivity]. cbn [rbind].
  destruct (sort_dirs_spec _ (flat_parts_descriptors _ _ _ _ _ Hy))
    as (sy & Hsy & Hpermy & _).
  rewrite Hsy. cbn [rbind].
  destruct (mapR _ zs) as [pz|e] eqn:Hz; [|reflexivity]. cbn [rbind].
  pose proof (flat_parts_descriptors _ _ _ _ _ Hx) as Dx.
  pose proof (flat_parts_descriptors _ _ _ _ _ Hy) as Dy.
  pose proof (flat_parts_descriptors _ _ _ _ _ Hz) as Dz.
  assert (Hl : flat (px ++ VArr sy :: pz) = flat px ++ sy ++ flat pz).
  { unfold flat. rewrite flat_map_app. reflexivity. }
  assert (Hr : flat (px ++ py ++ pz) = flat px ++ flat py ++ flat pz).
  { unfold flat. now rewrite !flat_map_app. }
  rewrite Hl, Hr.
  destruct (sort_dirs_spec (flat px ++ sy ++ flat pz)) as (l & Hsl & _ & Sl).
  { repeat (apply Forall_app; split); auto. eapply Permutation_Forall; eauto. }
  destruct (sort_dirs_spec (flat px ++ flat py ++ flat pz)) as (r & Hsr & _ & Sr).
  { repeat (apply Forall_app; split); auto. }
  rewrite Hsl, Hsr. cbn [rbind]. do 2 f_equal.
  apply stable_sorted_unique; auto.
  intros n. unfold at_depth.
  rewrite (sort_dirs_stable n _ _ Hsl), (sort_dirs_stable n _ _ Hsr).
  rewrite !filter_app. now rewrite (sort_dirs_stable n _ _ Hsy).
Qed.

End SortFacts.

Lemma normalizeDirs_list_stable_witness :
  Sample.normalize (VArr [VStr "b"; VStr "x/y"; VStr "a"]) "/app" =
  Ok (VArr [VObj [("path", VStr "/app/x/y")]; VObj [("path", VStr "/app/b")];
            VObj [("path", VStr "/app/a")]]).
Proof.
  destruct (normalizeDirs_list_stable Sample.resolve Sample.resolveAlias
              [VStr "b"; VStr "x/y"; VStr "a"] "/app" _ eq_refl)
    as (parts & out & _ & Hv & _).
  reflexivity.
Defined.

(** *** Objects and entries in the normaliser *)

Lemma filterR_throws A (f : A -> result bool) x e l :
  In x l -> f x = Throw e ->
  (forall y e', f y = Throw e' -> e' = e) ->
  filterR f l = Throw e.
Proof.
  intros Hin Hx Honly. induction l as [|y l IH]; [destruct Hin|].
  simpl. destruct (f y) as [keep|e'] eqn:Hy; simpl.
  - destruct Hin as [-> | Hin]; [congruence|].
    now rewrite (IH Hin).
  - now rewrite (Honly _ _ Hy).
Qed.

Section EntryFacts.

Variable resolve : string -> string -> string.
Variable resolveAlias : string -> string.

(** X6.  An object with a [dirs] list is only a carrier of that list: its
    own [path] and its other options play no part, and are not handed down
    to the entries. *)
Theorem normalizeDirs_dirs_only fs entries cwd :
  get "dirs" fs = VArr entries ->
  normalizeDirs resolve resolveAlias (VObj fs) cwd =
  normalizeDirs resolve resolveAlias (VObj [("dirs", VArr entries)]) cwd.
Proof using Type.
  intros Hd. simpl. unfold normalizeEntries. simpl. now rewrite Hd.
Qed.

(** X7.  An object with a non-empty string [path] and no [dirs] normalises
    to one descriptor, which is the object with its [path] resolved: every
    other option it carries is kept as it is. *)
Theorem normalizeDirs_keeps_options fs p cwd :
  get "path" fs = VStr p -> p <> "" -> truthy (get "dirs" fs) = false ->
  exists d,
    normalizeDirs resolve resolveAlias (VObj fs) cwd = Ok (VArr [VObj d]) /\
    get "path" d = VStr (resolve cwd (resolveAlias p)) /\
    forall k, k <> "path" -> get k d = get k fs.
Proof using Type.
  intros Hp Hne Hd.
  exists (set "path" (VStr (resolve cwd (resolveAlias p))) fs).
  split; [|split].
  - simpl. unfold normalizeEntries, or_else. simpl. rewrite Hd. simpl.
    rewrite Hp. simpl.
    destruct (String.eqb_spec p ""); [contradiction|]. simpl.
    now rewrite Hp.
  - apply get_set_same.
  - intros k Hk. apply get_set_other.
    destruct (String.eqb_spec "path" k); congruence.
Qed.

(** X8.  A string and an object that has only this string as its [path]
    stand for the same descriptor, except for the empty string: written as a
    configuration it gives a descriptor, written as a [path] it is dropped. *)
Theorem normalizeDirs_string_or_path s cwd :
  exists d,
    normalizeDirs resolve resolveAlias (VStr s) cwd = Ok d /\
    normalizeDirs resolve resolveAlias (VObj [("path", VStr s)]) cwd =
      Ok (VArr (if s =? "" then [] else [d])).
Proof using Type.
  eexists. split; [reflexivity|].
  simpl. unfold normalizeEntries. simpl.
  destruct (s =? ""); reflexivity.
Qed.

(** X9.  The exceptions of the object form: a [dirs] that is truthy and not
    an array, and a [dirs] list holding [null] or [undefined], each make the
    normaliser throw a [TypeError]; and an exception in an item of a list
    configuration is an exception of the list. *)
Theorem normalizeDirs_exceptions cwd :
  (forall fs, truthy (get "dirs" fs) = true -> isArray (get "dirs" fs) = false ->
              normalizeDirs resolve resolveAlias (VObj fs) cwd = Throw TypeError) /\
  (forall fs entries,
      get "dirs" fs = VArr entries -> In VNull entries \/ In VUndefined entries ->
      normalizeDirs resolve resolveAlias (VObj fs) cwd = Throw TypeError) /\
  (forall items x e,
      In x items -> normalizeDirs resolve resolveAlias x cwd = Throw e ->
      exists e', normalizeDirs resolve resolveAlias (VArr items) cwd = Throw e').
Proof using Type.
  split; [|split].
  - intros fs Ht Ha. simpl. unfold normalizeEntries, or_else. simpl.
    rewrite Ht. destruct (get "dirs" fs); try discriminate; reflexivity.
  - intros fs entries Hd Hin. simpl. unfold normalizeEntries. simpl.
    rewrite Hd. simpl.
    assert (Hin' : exists x, (x = VNull \/ x = VUndefined) /\
                             In x (map (fun d => match d with
                                                 | VStr s => VObj [("path", VStr s)]
                                                 | _ => d
                                                 end) entries)).
    { destruct Hin as [Hin | Hin].
      - exists VNull. split; [now left|].
        apply in_map_iff. exists VNull. split; [reflexivity | exact Hin].
      - exists VUndefined. split; [now right|].
        apply in_map_iff. exists VUndefined. split; [reflexivity | exact Hin]. }
    destruct Hin' as (x & Hx & Hin').
    rewrite (filterR_throws _ _ x TypeError _ Hin'); [reflexivity| |].
    + destruct Hx as [-> | ->]; reflexivity.
    + intros y e'. destruct y; simpl; intros H; congruence.
  - intros items x e Hin Hx. simpl.
    destruct (mapR _ items) as [parts|e'] eqn:Hparts; simpl; [|eauto].
    exfalso. apply mapR_Forall2 in Hparts.
    clear -Hin Hx Hparts. induction Hparts as [|y p ys ps Hy _ IH]; [destruct Hin|].
    destruct Hin as [-> | Hin]; [congruence | auto].
Qed.

End EntryFacts.

Lemma normalizeDirs_keeps_options_witness :
  Sample.normalize (VObj [("path", VStr "ui"); ("prefix", VStr "Ui")]) "/app" =
  Ok (VArr [VObj [("path", VStr "/app/ui"); ("prefix", VStr "Ui")]]).
Proof.
  destruct (normalizeDirs_keeps_options Sample.resolve Sample.resolveAlias
              [("path", VStr "ui"); ("prefix", VStr "Ui")] "ui" "/app" eq_refl)
    as (d & Hd & _); [discriminate | reflexivity |].
  reflexivity.
Defined.

Lemma normalizeDirs_dirs_only_witness :
  Sample.normalize (VObj [("path", VStr "ignored"); ("global", VBool true);
                          ("dirs", VArr [VStr "a"])]) "/app" =
  Ok (VArr [VObj [("path", VStr "/app/a")]]).
Proof.
  unfold Sample.normalize.
  rewrite (normalizeDirs_dirs_only Sample.resolve Sample.resolveAlias
             [("path", VStr "ignored"); ("global", VBool true);
              ("dirs", VArr [VStr "a"])] [VStr "a"] "/app" eq_refl).
  reflexivity.
Defined.

Lemma normalizeDirs_exceptions_witness :
  Sample.normalize (VObj [("dirs", VStr "components")]) "/app" = Throw TypeError /\
  Sample.normalize (VObj [("dirs", VArr [VStr "a"; VNull])]) "/app" = Throw TypeError.
Proof.
  destruct (normalizeDirs_exceptions Sample.resolve Sample.resolveAlias "/app")
    as (Hdirs & Hentry & _).
  split.
  - apply Hdirs; reflexivity.
  - apply (Hentry _ [VStr "a"; VNull]); [reflexivity | left; right; now left].
Defined.

(** *** Keys of an object *)

Lemma has_key_false_get k fs : has_key k fs = false -> get k fs = VUndefined.
Proof.
  induction fs as [|[k' v] fs IH]; simpl; auto.
  destruct (k' =? k); simpl; [discriminate | exact IH].
Qed.

Lemma has_key_In k fs : has_key k fs = true <-> In k (map fst fs).
Proof.
  induction fs as [|[k' v] fs IH]; simpl; [split; [discriminate | tauto]|].
  rewrite orb_true_iff, IH, String.eqb_eq. tauto.
Qed.

Lemma keys_set k v fs :
  map fst (set k v fs) = if has_key k fs then map fst fs else map fst fs ++ [k].
Proof.
  induction fs as [|[k' v'] fs IH]; simpl; auto.
  destruct (String.eqb_spec k' k) as [->|Hne]; simpl; [reflexivity|].
  rewrite IH. now destruct (has_key k fs).
Qed.

Lemma NoDup_set k v fs : NoDup (map fst fs) -> NoDup (map fst (set k v fs)).
Proof.
  intros H. rewrite keys_set. destruct (has_key k fs) eqn:Hk; auto.
  apply NoDup_app; auto.
  - constructor; [intros [] | constructor].
  - intros x Hx [<- | []]. apply has_key_In in Hx. congruence.
Qed.

Lemma has_key_set_other k k' v fs :
  (k' =? k) = false -> has_key k (set k' v fs) = has_key k fs.
Proof.
  intros Hne. induction fs as [|[k0 v0] fs IH]; simpl.
  - now rewrite Hne.
  - destruct (String.eqb_spec k0 k') as [->|]; simpl; [reflexivity|].
    now rewrite IH.
Qed.

(** Reading a spread: the key of the later object wins. *)
Lemma get_spread k a b :
  NoDup (map fst b) ->
  get k (spread a b) = if has_key k b then get k b else get k a.
Proof.
  unfold spread. revert a. induction b as [|[k' v] b IH]; simpl; intros a Hnd; auto.
  inversion Hnd as [|? ? Hnotin Hnd']; subst. rewrite (IH _ Hnd').
  destruct (String.eqb_spec k' k) as [->|Hne]; simpl.
  - destruct (has_key k b) eqn:Hk.
    + apply has_key_In in Hk. contradiction.
    + apply get_set_same.
  - destruct (has_key k b); auto.
    apply get_set_other. now apply String.eqb_neq.
Qed.

(** *** The fields of a resolved directory *)

Section ResolverFacts.

Variable resolve : string -> string -> string.
Variable resolveAlias : string -> string.
Variable statSync : string -> option bool.
Variable Number : value -> value.
Variable layers : list (value * string).
Variable options_extensions : value.
Variable componentOptions_global : value.
Variable on_components_dirs : list value -> result (list value).

(** The object that the callback of lines 74-103 returns. *)
Lemma resolveDir_object dir st d st' :
  resolveDir resolveAlias statSync Number options_extensions
             componentOptions_global dir st = (Ok d, st') ->
  exists path exts more,
    configured_path dir = VStr path /\
    strip_extensions (or_else (get "extensions" (options_of dir)) options_extensions)
      = Ok exts /\
    iterate (or_else (get "ignore"
                        (set "level" (Number (or_else (get "level" (options_of dir))
                                                      (VNum 0)))
                             (options_of dir)))
                     (VArr [])) = Ok more /\
    own_fields d =
      let opts := set "level" (Number (or_else (get "level" (options_of dir)) (VNum 0)))
                      (options_of dir) in
      set "transpile"
          (VBool (match get "transpile" (options_of dir) with
                  | VBool b => b
                  | _ => includes (resolveAlias path) "node_modules"
                  end))
      (set "ignore"
          (VArr (VStr "**/*{M,.m,-m}ixin.{js,ts,jsx,tsx}" :: VStr "**/*.d.ts" :: more))
      (set "pattern"
          (or_else (get "pattern" opts)
                   (VStr ("**/*.{" ++ String.concat "," exts ++ ",}")))
      (set "extensions" (VArr (map VStr exts))
      (set "path" (VStr (resolveAlias path))
      (set "enabled" (VBool true)
      (spread [("global", componentOptions_global)] opts)))))).
Proof using Type.
  unfold resolveDir. intros H.
  apply bind_ok in H as (path0 & st1 & H1 & H). apply lift_ok in H1 as [Hp0 ->].
  apply bind_ok in H as (path & st1 & H1 & H). apply lift_ok in H1 as [Hp ->].
  apply bind_ok in H as (exts & st1 & H1 & H). apply lift_ok in H1 as [Hexts ->].
  apply bind_ok in H as ([] & st1 & _ & H).
  apply bind_ok in H as (more & st2 & H1 & H). apply lift_ok in H1 as [Hmore ->].
  injection H as <- <-.
  destruct path0; try discriminate. injection Hp as ->.
  exists path, exts, more. fold (options_of dir) in *.
  split; [|split; [exact Hexts | split; [exact Hmore|]]].
  - unfold configured_path, options_of.
    destruct (typeof_object dir) eqn:Ht.
    + destruct dir; simpl in *; try discriminate; congruence.
    + simpl in *. congruence.
  - cbv zeta. cbn [own_fields].
    destruct (get "transpile" (options_of dir)); reflexivity.
Qed.

(** X10.  Whatever a directory is configured with, its resolved form is
    enabled, lists its extensions without their leading dot, takes the
    configured [pattern] or else the one built from the extensions, and
    ignores the mixin and declaration files first and the configured
    patterns after them. *)
Theorem resolveDir_computed_fields dir st d st' :
  resolveDir resolveAlias statSync Number options_extensions
             componentOptions_global dir st = (Ok d, st') ->
  exists exts more,
    strip_extensions (or_else (get "extensions" (options_of dir)) options_extensions)
      = Ok exts /\
    iterate (or_else (get "ignore" (options_of dir)) (VArr [])) = Ok more /\
    get "enabled" (own_fields d) = VBool true /\
    get "extensions" (own_fields d) = VArr (map VStr exts) /\
    get "pattern" (own_fields d) =
      or_else (get "pattern" (options_of dir))
              (VStr ("**/*.{" ++ String.concat "," exts ++ ",}")) /\
    get "ignore" (own_fields d) =
      VArr (VStr "**/*{M,.m,-m}ixin.{js,ts,jsx,tsx}" :: VStr "**/*.d.ts" :: more).
Proof using Type.
  intros H.
  apply resolveDir_object in H as (path & exts & more & _ & Hexts & Hmore & ->).
  rewrite get_set_other in Hmore by reflexivity.
  exists exts, more. cbv zeta.
  repeat (rewrite ?get_set_same; try (rewrite get_set_other by reflexivity)).
  repeat split; auto.
Qed.

(** X11.  With an object whose keys are distinct, resolution leaves every
    option it does not compute itself as configured; [global] is the
    directory's own when it has the key and the module option otherwise; and
    [level] is the number made of the configured level, or of [0]. *)
Theorem resolveDir_kept_fields dir st d st' :
  NoDup (map fst (options_of dir)) ->
  resolveDir resolveAlias statSync Number options_extensions
             componentOptions_global dir st = (Ok d, st') ->
  (forall k, ~ In k computed_fields -> k <> "global" ->
             get k (own_fields d) = get k (options_of dir)) /\
  get "global" (own_fields d) =
    (if has_key "global" (options_of dir)
     then get "global" (options_of dir)
     else componentOptions_global) /\
  get "level" (own_fields d) =
    Number (or_else (get "level" (options_of dir)) (VNum 0)).
Proof using Type.
  intros Hnd H.
  apply resolveDir_object in H as (path & exts & more & _ & _ & _ & ->).
  cbv zeta.
  set (lvl := Number (or_else (get "level" (options_of dir)) (VNum 0))).
  assert (Hnd' : NoDup (map fst (set "level" lvl (options_of dir))))
    by now apply NoDup_set.
  split; [|split].
  - intros k Hk Hg. unfold computed_fields in Hk. simpl in Hk.
    assert (Hne : forall k', In k' computed_fields -> (k' =? k) = false).
    { intros k' Hin. apply String.eqb_neq. intros ->. now apply Hk. }
    rewrite (get_set_other k "transpile") by (apply Hne; simpl; auto 10).
    rewrite (get_set_other k "ignore") by (apply Hne; simpl; auto 10).
    rewrite (get_set_other k "pattern") by (apply Hne; simpl; auto 10).
    rewrite (get_set_other k "extensions") by (apply Hne; simpl; auto 10).
    rewrite (get_set_other k "path") by (apply Hne; simpl; auto 10).
    rewrite (get_set_other k "enabled") by (apply Hne; simpl; auto 10).
    rewrite (get_spread _ _ _ Hnd').
    rewrite (has_key_set_other k "level") by (apply Hne; simpl; auto 10).
    rewrite (get_set_other k "level") by (apply Hne; simpl; auto 10).
    destruct (has_key k (options_of dir)) eqn:Hk'; [reflexivity|].
    rewrite (has_key_false_get _ _ Hk'). cbn [get].
    destruct (String.eqb_spec "global" k); [congruence | reflexivity].
  - rewrite !get_set_other by reflexivity.
    rewrite (get_spread _ _ _ Hnd').
    rewrite has_key_set_other by reflexivity.
    rewrite get_set_other by reflexivity.
    destruct (has_key "global" (options_of dir)); reflexivity.
  - rewrite !get_set_other by reflexivity.
    rewrite (get_spread _ _ _ Hnd').
    assert (Hk : has_key "level" (set "level" lvl (options_of dir)) = true).
    { apply has_key_In. rewrite keys_set.
      destruct (has_key "level" (options_of dir)) eqn:Hl.
      - now apply has_key_In.
      - apply in_or_app; right; now left. }
    rewrite Hk. apply get_set_same.
Qed.

Lemma warnings_of_matching fs p :
  get "path" fs = VStr p -> DEFAULT_COMPONENTS_DIRS_RE_test p = true ->
  warnings_of resolveAlias statSync (VObj fs) = [].
Proof using Type.
  intros Hp Hre. unfold warnings_of, configured_path, options_of.
  cbn [typeof_object own_fields]. rewrite Hp.
  unfold not_found_warning. now rewrite Hre, andb_false_r.
Qed.

(** X12.  The implicit default directories of a source root never cause a
    warning, whatever the file system holds. *)
Theorem default_dirs_never_warn cwd dir v :
  dir = VBool true \/ dir = VUndefined ->
  resolves_defaults_under resolve cwd ->
  normalizeDirs resolve resolveAlias dir cwd = Ok v ->
  Forall (fun d => warnings_of resolveAlias statSync d = []) (descriptors v).
Proof using Type.
  intros Hdir [Hglobal Hplain] H.
  destruct (default_paths_match_RE cwd) as [Hg Hp].
  assert (Hv : v = VArr [ VObj [("path", VStr (resolve cwd "components/global"));
                                ("global", VBool true)];
                          VObj [("path", VStr (resolve cwd "components"))] ]).
  { destruct Hdir as [-> | ->]; cbn [normalizeDirs] in H; now injection H as <-. }
  subst v. unfold descriptors, flat. cbn [flat_map app].
  constructor; [|constructor; [|constructor]].
  - eapply warnings_of_matching; [reflexivity|]. now rewrite Hglobal.
  - eapply warnings_of_matching; [reflexivity|]. now rewrite Hplain.
Qed.

End ResolverFacts.

(** *** Failures and repetition of [app:resolve] *)

Lemma logged_nil st : logged [] st = st.
Proof. destruct st. unfold logged. simpl. now rewrite app_nil_r. Qed.

Lemma logged_logged w1 w2 st : logged w2 (logged w1 st) = logged (w1 ++ w2) st.
Proof. unfold logged. simpl. now rewrite app_assoc. Qed.

Lemma mapR_throws_only A B (f : A -> result B) e0 l e :
  (forall x e', f x = Throw e' -> e' = e0) ->
  mapR f l = Throw e -> e = e0.
Proof.
  intros Honly. induction l as [|x l IH]; simpl; [discriminate|].
  destruct (f x) eqn:Hx; simpl.
  - destruct (mapR f l); simpl; [discriminate|]. intros H. injection H as <-. auto.
  - intros H. injection H as <-. eauto.
Qed.

Section ResolveRuns.

Variable resolve : string -> string -> string.
Variable resolveAlias : string -> string.
Variable statSync : string -> option bool.
Variable Number : value -> value.
Variable layers : list (value * string).
Variable options_extensions : value.
Variable componentOptions_global : value.
Variable on_components_dirs : list value -> result (list value).

(** The callback of [app:resolve] reads nothing of the state and only
    writes to the console. *)
Lemma resolveDir_uniform dir :
  exists r w, forall st,
    resolveDir resolveAlias statSync Number options_extensions
               componentOptions_global dir st = (r, logged w st).
Proof using Type.
  unfold resolveDir, bind, lift, ret.
  destruct (prop "path" _) as [p0|e]; cbn beta iota;
    [|exists (Throw e), []; intros st; now rewrite logged_nil].
  destruct (match p0 with VStr s => Ok s | _ => Throw TypeError end) as [path|e];
    cbn beta iota;
    [|exists (Throw e), []; intros st; now rewrite logged_nil].
  destruct (strip_extensions _) as [exts|e]; cbn beta iota;
    [|exists (Throw e), []; intros st; now rewrite logged_nil].
  destruct (negb _ && negb _); cbn beta iota; unfold warn; cbn beta iota;
    (destruct (iterate _) as [more|e]; cbn beta iota;
     eexists; eexists; intros st; try reflexivity;
     rewrite <- (logged_nil st) at 1; reflexivity).
Qed.

Lemma mapM_resolveDir_uniform dirs :
  exists r w, forall st,
    mapM (resolveDir resolveAlias statSync Number options_extensions
                     componentOptions_global) dirs st = (r, logged w st).
Proof using Type.
  induction dirs as [|dir dirs (rs & ws & IH)]; simpl.
  - exists (Ok []), []. intros st. now rewrite logged_nil.
  - destruct (resolveDir_uniform dir) as (r & w & Hd).
    unfold bind, ret. destruct r as [d|e].
    + destruct rs as [ds|e].
      * exists (Ok (d :: ds)), (w ++ ws). intros st.
        now rewrite Hd, IH, logged_logged.
      * exists (Throw e), (w ++ ws). intros st.
        now rewrite Hd, IH, logged_logged.
    + exists (Throw e), w. intros st. now rewrite Hd.
Qed.

(** A run of [app:resolve] whose layers normalise, whose listeners return
    and whose directories resolve, from any state. *)
Lemma app_resolve_closed perLayer hooked resolved w :
  mapR (fun layer => normalizeDirs resolve resolveAlias (fst layer) (snd layer))
       layers = Ok perLayer ->
  on_components_dirs (flat perLayer) = Ok hooked ->
  (forall st,
     mapM (resolveDir resolveAlias statSync Number options_extensions
                      componentOptions_global)
          (filter isPureObjectOrString hooked) st = (Ok resolved, logged w st)) ->
  forall st,
    app_resolve resolve resolveAlias statSync Number layers options_extensions
                componentOptions_global on_components_dirs st =
    (Ok tt,
     mkState (node_modules_last resolved) (context_components st)
             (build_transpile st ++
              map dir_path (filter transpiled (node_modules_last resolved)))
             (console st ++ w) (hookCalls st ++ ["components:dirs"])).
Proof using Type.
  intros HperLayer Hhooked Hres st.
  assert (Hall : Forall (fun d => in_node_modules d = Ok (under_node_modules d) /\
                                  enabled d = true) resolved).
  { pose proof (Hres st) as H. apply mapM_resolveDir_ok in H as (H & _).
    clear -H. induction H; constructor; auto.
    eapply resolved_in_node_modules; eauto. }
  assert (Hen : filter enabled resolved = resolved).
  { clear -Hall. induction Hall as [|d ds [_ Hd] _ IH]; simpl; auto.
    now rewrite Hd, IH. }
  unfold app_resolve, bind, lift, logHook. rewrite HperLayer. cbn beta iota.
  rewrite Hhooked. cbn beta iota. rewrite Hres.
  unfold set_componentDirs, read_componentDirs, push_transpile, logged.
  cbn beta iota. cbn [componentDirs context_components build_transpile console hookCalls].
  rewrite Hen.
  rewrite (filterR_total _ _ (fun d => negb (under_node_modules d)) resolved).
  2:{ eapply Forall_impl; [|exact Hall]. intros d [-> _]. reflexivity. }
  rewrite (filterR_total _ _ under_node_modules resolved).
  2:{ eapply Forall_impl; [|exact Hall]. now intros d [-> _]. }
  reflexivity.
Qed.

(** X13.  [app:resolve] is repeatable but not idempotent: run again after
    it has returned, it returns again, stores the same directories and calls
    [components:dirs] once more, and it appends the same paths to the
    transpile list and the same warnings to the console a second time. *)
Theorem app_resolve_again st st1 :
  app_resolve resolve resolveAlias statSync Number layers options_extensions
              componentOptions_global on_components_dirs st = (Ok tt, st1) ->
  exists st2 w,
    app_resolve resolve resolveAlias statSync Number layers options_extensions
                componentOptions_global on_components_dirs st1 = (Ok tt, st2) /\
    componentDirs st2 = componentDirs st1 /\
    build_transpile st1 =
      build_transpile st ++ map dir_path (filter transpiled (componentDirs st1)) /\
    build_transpile st2 =
      build_transpile st1 ++ map dir_path (filter transpiled (componentDirs st1)) /\
    console st1 = console st ++ w /\
    console st2 = console st1 ++ w /\
    hookCalls st2 = hookCalls st ++ ["components:dirs"; "components:dirs"].
Proof using Type.
  intros H. pose proof H as Hrun. unfold app_resolve in H.
  apply bind_ok in H as (perLayer & s1 & H1 & H). apply lift_ok in H1 as [HperLayer ->].
  apply bind_ok in H as ([] & s1 & _ & H).
  apply bind_ok in H as (hooked & s2 & H1 & H). apply lift_ok in H1 as [Hhooked ->].
  apply bind_ok in H as (resolved & s2 & Hres & _).
  destruct (mapM_resolveDir_uniform (filter isPureObjectOrString hooked))
    as (r & w & Hu).
  rewrite Hu in Hres. injection Hres as -> _.
  pose proof (app_resolve_closed _ _ _ _ HperLayer Hhooked Hu) as Hclosed.
  rewrite Hclosed in Hrun. injection Hrun as <-.
  eexists. exists w. split; [apply Hclosed|].
  cbn [componentDirs build_transpile console hookCalls].
  repeat split. now rewrite <- app_assoc.
Qed.

Lemma strip_extensions_only_TypeError v e :
  strip_extensions v = Throw e -> e = TypeError.
Proof using Type.
  unfold strip_extensions. destruct v; simpl; try congruence.
  apply mapR_throws_only. intros x e'. destruct x; congruence.
Qed.

Lemma iterate_only_TypeError v e : iterate v = Throw e -> e = TypeError.
Proof using Type. destruct v; simpl; congruence. Qed.

Lemma resolveDir_only_TypeError dir st e st' :
  resolveDir resolveAlias statSync Number options_extensions
             componentOptions_global dir st = (Throw e, st') ->
  e = TypeError.
Proof using Type.
  unfold resolveDir. intros H.
  apply bind_run in H as [(e1 & H & He) | (p0 & s1 & H1 & H)].
  { injection He as ->. injection H as H _.
    destruct (if typeof_object dir then dir else VObj [("path", dir)]);
      simpl in H; congruence. }
  apply bind_run in H as [(e1 & H & He) | (path & s2 & H2 & H)].
  { injection He as ->. injection H as H _. destruct p0; congruence. }
  apply bind_run in H as [(e1 & H & He) | (exts & s3 & H3 & H)].
  { injection He as ->. injection H as H _.
    now apply strip_extensions_only_TypeError in H. }
  apply bind_run in H as [(e1 & H & He) | ([] & s4 & H4 & H)].
  { destruct (negb _ && negb _); discriminate. }
  apply bind_run in H as [(e1 & H & He) | (more & s5 & H5 & H)].
  { injection He as ->. injection H as H _.
    now apply iterate_only_TypeError in H. }
  discriminate.
Qed.

Lemma mapM_resolveDir_only_TypeError dirs st e st' :
  mapM (resolveDir resolveAlias statSync Number options_extensions
                   componentOptions_global) dirs st = (Throw e, st') ->
  e = TypeError.
Proof using Type.
  revert st. induction dirs as [|dir dirs IH]; simpl; intros st H; [discriminate|].
  apply bind_run in H as [(e1 & H & He) | (d & s1 & _ & H)].
  { injection He as ->. eapply resolveDir_only_TypeError; eauto. }
  apply bind_run in H as [(e1 & H & He) | (ds & s2 & _ & H)].
  { injection He as ->. eapply IH; eauto. }
  discriminate.
Qed.

Lemma Forall2_In_l A B (R : A -> B -> Prop) l l' x :
  Forall2 R l l' -> In x l -> exists y, In y l' /\ R x y.
Proof using Type.
  induction 1 as [|x' y l l' Hxy _ IH]; simpl; [intros []|].
  intros [<- | Hx]; [eauto|].
  destruct (IH Hx) as (y' & Hy' & HR); eauto.
Qed.

(** X14.  The three ways [app:resolve] fails.  An exception while
    normalising a layer is thrown before anything else happens, and leaves
    the state as it was.  A rejection by the [components:dirs] listeners is
    thrown after the hook call and nothing else.  And a directory that
    reaches resolution without a string [path] (an object lacking it, or
    [null]) makes the handler throw a [TypeError]; in each case the tracked
    directories, the transpile list and the registry stay as they were. *)
Theorem app_resolve_failures st :
  (forall e,
     mapR (fun layer => normalizeDirs resolve resolveAlias (fst layer) (snd layer))
          layers = Throw e ->
     app_resolve resolve resolveAlias statSync Number layers options_extensions
                 componentOptions_global on_components_dirs st = (Throw e, st)) /\
  (forall perLayer e,
     mapR (fun layer => normalizeDirs resolve resolveAlias (fst layer) (snd layer))
          layers = Ok perLayer ->
     on_components_dirs (flat perLayer) = Throw e ->
     app_resolve resolve resolveAlias statSync Number layers options_extensions
                 componentOptions_global on_components_dirs st =
     (Throw e, mkState (componentDirs st) (context_components st) (build_transpile st)
                       (console st) (hookCalls st ++ ["components:dirs"]))) /\
  (forall configured x,
     configured_dirs resolve resolveAlias layers on_components_dirs = Ok configured ->
     In x configured -> (forall p, configured_path x <> VStr p) ->
     exists st',
       app_resolve resolve resolveAlias statSync Number layers options_extensions
                   componentOptions_global on_components_dirs st =
         (Throw TypeError, st') /\
       componentDirs st' = componentDirs st /\
       build_transpile st' = build_transpile st /\
       context_components st' = context_components st).
Proof using Type.
  split; [|split].
  - intros e He. unfold app_resolve, bind, lift. now rewrite He.
  - intros perLayer e Hp He. unfold app_resolve, bind, lift, logHook.
    rewrite Hp. cbn beta iota. now rewrite He.
  - intros configured x Hc Hx Hpath. unfold configured_dirs in Hc.
    apply rbind_ok in Hc as (perLayer & Hp & Hc).
    apply rbind_ok in Hc as (hooked & Hh & Hc). injection Hc as <-.
    destruct (mapM_resolveDir_uniform (filter isPureObjectOrString hooked))
      as (r & w & Hu).
    assert (Hr : r = Throw TypeError).
    { destruct r as [resolved|e].
      - exfalso. pose proof (Hu st) as H.
        apply mapM_resolveDir_ok in H as (H & _).
        destruct (Forall2_In_l _ _ _ _ _ _ H Hx) as (d & _ & p & Hcp & _).
        now apply (Hpath p).
      - f_equal. eapply mapM_resolveDir_only_TypeError. apply (Hu st). }
    subst r. eexists. split.
    + unfold app_resolve, bind, lift, logHook. rewrite Hp. cbn beta iota.
      rewrite Hh. cbn beta iota. rewrite Hu. reflexivity.
    + repeat split.
Qed.

End ResolveRuns.

Lemma app_resolve_again_witness :
  exists st2,
    app_resolve Sample.resolve Sample.resolveAlias Sample.statSync Sample.Number
                Sample.one_layer Sample.extensions VUndefined (fun dirs => Ok dirs)
                (snd (Sample.run_resolve Sample.one_layer)) = (Ok tt, st2) /\
    build_transpile st2 =
      [VStr "/app/widgets"; VStr "/app/node_modules/ui/dist/components/base";
       VStr "/app/widgets"; VStr "/app/node_modules/ui/dist/components/base"].
Proof.
  assert (Hr : Sample.run_resolve Sample.one_layer =
               (Ok tt, snd (Sample.run_resolve Sample.one_layer))) by reflexivity.
  destruct (app_resolve_again Sample.resolve Sample.resolveAlias Sample.statSync
              Sample.Number Sample.one_layer Sample.extensions VUndefined
              (fun dirs => Ok dirs) _ _ Hr)
    as (st2 & w & Hrun & _ & _ & Ht & _).
  exists st2. split; [exact Hrun|]. rewrite Ht. reflexivity.
Defined.

Lemma app_resolve_failures_witness :
  exists st',
    app_resolve Sample.resolve Sample.resolveAlias Sample.statSync Sample.Number
                Sample.two_layers Sample.extensions VUndefined
                (fun dirs => Ok (dirs ++ [VNull])) (initial []) =
      (Throw TypeError, st') /\
    componentDirs st' = [].
Proof.
  destruct (app_resolve_failures Sample.resolve Sample.resolveAlias Sample.statSync
              Sample.Number Sample.two_layers Sample.extensions VUndefined
              (fun dirs => Ok (dirs ++ [VNull])) (initial []))
    as (_ & _ & Hpathless).
  destruct (Hpathless _ VNull eq_refl) as (st' & Hrun & Hdirs & _).
  - cbv. auto 10.
  - intros p. discriminate.
  - exists st'. split; [exact Hrun | exact Hdirs].
Defined.

(** *** The registry handlers and the watcher *)

Lemma filter_subsequence A (f : A -> bool) l : subsequence (filter f l) l.
Proof.
  induction l as [|x l IH]; simpl; [constructor|].
  destruct (f x); now constructor.
Qed.

(** X15.  Asked for the client view and for the server view, the accessor
    answers with the registry from which some components are left out, the
    others in registry order; and a component is in both answers exactly
    when it is in the registry with mode [all]. *)
Theorem getComponents_both_views st c :
  (In c (getComponents st (Some client)) /\ In c (getComponents st (Some server)) <->
   In c (context_components st) /\ mode c = Some all) /\
  subsequence (getComponents st (Some client)) (context_components st) /\
  subsequence (getComponents st (Some server)) (context_components st).
Proof.
  unfold getComponents. simpl. split; [|split].
  - rewrite !filter_In. unfold mode_of, same_mode.
    destruct (mode c) as [[]|]; simpl; intuition congruence.
  - apply filter_subsequence.
  - apply filter_subsequence.
Qed.

Section HandlerFacts.

Variable resolve : string -> string -> string.
Variable srcDir : string.
Variable on_components_extend : list Component -> result (list Component).
Variable on_generateApp : result unit.
Variable scanComponents : list value -> string -> result (list Component).

(** X16.  [app:templates] gives the scanner the tracked directories and the
    source root, calls [components:extend] once if the scanner returns and
    not at all if it throws, and touches neither the tracked directories nor
    the transpile list nor the console. *)
Theorem app_templates_effects st r st' :
  app_templates srcDir on_components_extend scanComponents st = (r, st') ->
  hookCalls st' =
    hookCalls st ++ (match scanComponents (componentDirs st) srcDir with
                     | Ok _ => ["components:extend"]
                     | Throw _ => []
                     end) /\
  componentDirs st' = componentDirs st /\
  build_transpile st' = build_transpile st /\
  console st' = console st.
Proof using Type.
  unfold app_templates, bind, read_componentDirs, lift, logHook, set_components.
  destruct (scanComponents (componentDirs st) srcDir) as [scanned|e]; simpl.
  - destruct (on_components_extend scanned); simpl;
      intros H; injection H as _ <-; repeat split.
  - intros H; injection H as _ <-. rewrite app_nil_r. repeat split.
Qed.

(** X17.  The watcher compares text, not paths: for an [add] or [unlink]
    event it asks for regeneration as soon as the resolved file path begins
    with the path of a tracked directory, whatever follows, be it a
    separator or the rest of a longer directory name. *)
Theorem watch_matches_by_prefix event path st r st' d p rest :
  Forall (fun d => is_descriptor d = true) (componentDirs st) ->
  In d (componentDirs st) -> dir_path d = VStr p ->
  event = "add" \/ event = "unlink" ->
  resolve srcDir path = (p ++ rest)%string ->
  builder_watch resolve srcDir on_generateApp event path st = (r, st') ->
  hookCalls st' = hookCalls st ++ ["builder:generateApp"] /\ r = on_generateApp.
Proof using Type.
  intros Hwf Hin Hp Hev Hpath H. unfold builder_watch in H.
  assert (Hevent : existsb (String.eqb event) ["add"; "unlink"] = true).
  { destruct Hev as [-> | ->]; reflexivity. }
  rewrite Hevent in H. cbn [negb] in H.
  unfold bind, read_componentDirs, lift in H. cbn beta iota in H.
  rewrite (findR_tracks _ _ Hwf) in H.
  destruct (find (tracks (resolve srcDir path)) (componentDirs st)) as [d'|] eqn:Hfind.
  - apply find_some in Hfind as [Hin' _].
    rewrite Forall_forall in Hwf. specialize (Hwf _ Hin').
    destruct d'; try discriminate. cbn [truthy] in H.
    unfold logHook in H. cbn beta iota in H.
    destruct on_generateApp; injection H as <- <-; split; reflexivity.
  - exfalso. apply (find_none _ _ Hfind) in Hin.
    unfold tracks, startsWith in Hin. rewrite Hp, Hpath, prefix_append in Hin.
    discriminate.
Qed.

End HandlerFacts.

Lemma watch_matches_by_prefix_witness :
  hookCalls (snd (Sample.watch "unlink" "components-old/Foo.vue")) =
  ["builder:generateApp"].
Proof.
  refine (proj1 (watch_matches_by_prefix Sample.resolve "/app" (Ok tt)
                   "unlink" "components-old/Foo.vue" Sample.tracking _ _
                   (VObj [("path", VStr "/app/components")]) "/app/components"
                   "-old/Foo.vue" _ _ eq_refl _ eq_refl eq_refl)).
  - repeat constructor.
  - now left.
  - now right.
Defined.

Lemma app_templates_effects_witness :
  hookCalls (snd (Sample.handle_with Sample.failing_scan AppTemplates Sample.registry)) = [].
Proof.
  exact (proj1 (app_templates_effects "/app" (fun cs => Ok cs) Sample.failing_scan
                  Sample.registry _ _ eq_refl)).
Defined.

(** *** The bundler hooks *)

Section BridgeFacts.

Variable resolve : string -> string -> string.
Variable buildDir : string.
Variable sourcemap : value.
Variable treeshakeClientOnly : value.

Lemma loader_modes_push b m config :
  loader_modes (push_plugins sourcemap treeshakeClientOnly b m config) =
  loader_modes config ++ [m].
Proof using Type.
  unfold loader_modes, push_plugins. cbn [plugins].
  destruct (truthy treeshakeClientOnly); rewrite !flat_map_app; simpl;
    now rewrite ?app_nil_r.
Qed.

Lemma push_plugins_appends b m config :
  exists existing,
    (plugins config = Some existing \/ plugins config = None /\ existing = []) /\
    plugins (push_plugins sourcemap treeshakeClientOnly b m config) =
      Some (existing ++
            loaderPlugin b sourcemap m ::
            (if truthy treeshakeClientOnly
             then [TreeShakeTemplatePlugin b sourcemap]
             else [])).
Proof using Type.
  unfold push_plugins. cbn [plugins].
  destruct (plugins config) as [ps|]; [exists ps | exists []];
    (split; [auto|]); destruct (truthy treeshakeClientOnly);
    now rewrite <- ?app_assoc.
Qed.

Lemma set_alias_others m config k :
  k <> "#components" ->
  get k (resolve_alias (set_alias resolve buildDir m config)) =
  get k (resolve_alias config).
Proof using Type.
  intros Hk. unfold set_alias. cbn [resolve_alias].
  apply get_set_other. now apply String.eqb_neq, not_eq_sym.
Qed.

(** X18.  Once [vite:extendConfig] has run, the configuration keeps its
    other aliases and the plugins it had, in their order; [#components]
    names the registry file of the target, client or server; the loader
    plugin is added after the existing plugins, for that same target, and
    the tree-shaking plugin after it exactly when the experimental flag is
    set. *)
Theorem vite_extendConfig_spec (config : BundlerConfig) (isClient : bool) :
  let m := if isClient then client else server in
  let config' := vite_extendConfig resolve buildDir sourcemap treeshakeClientOnly
                                   config isClient in
  get "#components" (resolve_alias config') = components_file resolve buildDir m /\
  (forall k, k <> "#components" ->
             get k (resolve_alias config') = get k (resolve_alias config)) /\
  loader_modes config' = loader_modes config ++ [m] /\
  exists existing,
    (plugins config = Some existing \/ plugins config = None /\ existing = []) /\
    plugins config' =
      Some (existing ++
            loaderPlugin vite sourcemap m ::
            (if truthy treeshakeClientOnly
             then [TreeShakeTemplatePlugin vite sourcemap]
             else [])).
Proof using Type.
  cbv zeta. unfold vite_extendConfig, vite_extendConfig_plugins,
              vite_extendConfig_alias.
  split; [|split; [|split]].
  - unfold push_plugins, set_alias. cbn [resolve_alias]. apply get_set_same.
  - intros k Hk. unfold push_plugins. cbn [resolve_alias].
    now apply set_alias_others.
  - rewrite loader_modes_push. reflexivity.
  - apply (push_plugins_appends vite _ (set_alias resolve buildDir _ config)).
Qed.

(** X19.  Once [webpack:config] has run, each configuration has its
    [#components] alias on the server file when it is named [server] and on
    the client file otherwise, and one more loader plugin, in client mode
    when it is named [client] and in server mode otherwise.  The two modes
    are the same exactly for the configurations named [client] or [server];
    for any other name the alias is the client file and the loader is in
    server mode. *)
Theorem webpack_config_modes configs :
  Forall2
    (fun config config' : BundlerConfig =>
       let alias_mode :=
         if name_is (config_name config) "server" then server else client in
       let loader_mode :=
         if name_is (config_name config) "client" then client else server in
       config_name config' = config_name config /\
       get "#components" (resolve_alias config') =
         components_file resolve buildDir alias_mode /\
       (forall k, k <> "#components" ->
                  get k (resolve_alias config') = get k (resolve_alias config)) /\
       loader_modes config' = loader_modes config ++ [loader_mode] /\
       (alias_mode = loader_mode <->
        name_is (config_name config) "client" = true \/
        name_is (config_name config) "server" = true))
    configs
    (webpack_config resolve buildDir sourcemap treeshakeClientOnly configs).
Proof using Type.
  unfold webpack_config, webpack_config_plugins, webpack_config_alias.
  induction configs as [|config configs IH]; simpl; constructor; auto.
  cbv zeta. split; [reflexivity|]. split; [|split; [|split]].
  - unfold push_plugins, set_alias. cbn [resolve_alias]. apply get_set_same.
  - intros k Hk. unfold push_plugins. cbn [resolve_alias].
    now apply set_alias_others.
  - rewrite loader_modes_push. unfold loader_modes, set_alias. reflexivity.
  - unfold name_is. destruct (config_name config) as [| | | |n| |];
      try (split; [discriminate | intros [|]; discriminate]).
    destruct (String.eqb_spec n "server") as [->|Hs]; simpl.
    + split; auto.
    + destruct (String.eqb_spec n "client") as [->|Hc]; simpl.
      * split; auto.
      * split; [discriminate | intros [|]; discriminate].
Qed.

End BridgeFacts.

(** *** The sample project again *)

Lemma resolveDir_computed_fields_witness :
  exists d st',
    resolveDir Sample.resolveAlias Sample.statSync Sample.Number Sample.extensions
               VUndefined
               (VObj [("path", VStr "/app/ui"); ("enabled", VBool false)])
               (initial []) = (Ok d, st') /\
    get "enabled" (own_fields d) = VBool true /\
    get "extensions" (own_fields d) = VArr [VStr "vue"; VStr "ts"].
Proof.
  destruct (resolveDir Sample.resolveAlias Sample.statSync Sample.Number
                       Sample.extensions VUndefined
                       (VObj [("path", VStr "/app/ui"); ("enabled", VBool false)])
                       (initial [])) as [[d|e] st'] eqn:H;
    [|vm_compute in H; discriminate].
  exists d, st'. split; [reflexivity|].
  destruct (resolveDir_computed_fields _ _ _ _ _ _ _ _ _ H)
    as (exts & more & Hexts & _ & Hen & Hext & _).
  split; [exact Hen|]. rewrite Hext.
  vm_compute in Hexts. injection Hexts as <-. reflexivity.
Defined.

Lemma resolveDir_kept_fields_witness :
  exists d st',
    resolveDir Sample.resolveAlias Sample.statSync Sample.Number Sample.extensions
               (VBool true)
               (VObj [("path", VStr "/app/ui"); ("prefix", VStr "Ui")])
               (initial []) = (Ok d, st') /\
    get "prefix" (own_fields d) = VStr "Ui" /\
    get "global" (own_fields d) = VBool true.
Proof.
  destruct (resolveDir Sample.resolveAlias Sample.statSync Sample.Number
                       Sample.extensions (VBool true)
                       (VObj [("path", VStr "/app/ui"); ("prefix", VStr "Ui")])
                       (initial [])) as [[d|e] st'] eqn:H;
    [|vm_compute in H; discriminate].
  exists d, st'. split; [reflexivity|].
  assert (Hnd : NoDup (map fst (options_of
                                  (VObj [("path", VStr "/app/ui"); ("prefix", VStr "Ui")])))).
  { simpl. repeat constructor; simpl; intuition discriminate. }
  destruct (resolveDir_kept_fields _ _ _ _ _ _ _ _ _ Hnd H) as (Hkept & Hglobal & _).
  split.
  - rewrite (Hkept "prefix"); [reflexivity | | discriminate].
    simpl. intuition discriminate.
  - exact Hglobal.
Defined.

Lemma default_dirs_never_warn_witness :
  Forall (fun d => warnings_of Sample.resolveAlias Sample.statSync d = [])
         [VObj [("path", VStr "/app/components/global"); ("global", VBool true)];
          VObj [("path", VStr "/app/components")]].
Proof.
  apply (default_dirs_never_warn Sample.resolve Sample.resolveAlias Sample.statSync
           "/app" (VBool true)
           (VArr [VObj [("path", VStr "/app/components/global"); ("global", VBool true)];
                  VObj [("path", VStr "/app/components")]])).
  - now left.
  - split; reflexivity.
  - reflexivity.
Defined.

(** The three targets of the sample bundle: the unnamed one gets the client
    registry file and a loader in server mode. *)
Example webpack_config_unnamed :
  map (fun c => (get "#components" (resolve_alias c), loader_modes c))
      (SampleBridges.bundled [SampleBridges.client_config; SampleBridges.server_config;
                              SampleBridges.unnamed_config]) =
  [(VStr "/app/.nuxt/components.client.mjs", [client]);
   (VStr "/app/.nuxt/components.server.mjs", [server]);
   (VStr "/app/.nuxt/components.client.mjs", [server])].
Proof. reflexivity. Qed.

(** *** The sort, whatever the algorithm *)

(** X20.  The result of sorting descriptors is fixed by what
    [Array.prototype.sort] promises, not by the algorithm: any list that is
    in order of non-increasing depth and holds, at each depth, the same
    descriptors in the same order as the input is the list the sort
    returns. *)
Theorem sort_dirs_characterised l out :
  Forall (fun d => is_descriptor d = true) l ->
  sorted_by_depth out ->
  (forall n, at_depth n out = at_depth n l) ->
  sort_dirs l = Ok out.
Proof.
  intros Hl Hs Hsame.
  destruct (sort_dirs_spec l Hl) as (r & Hr & _ & Hsr).
  rewrite Hr. f_equal. apply stable_sorted_unique; auto.
  intros n. rewrite Hsame. unfold at_depth. now apply sort_dirs_stable.
Qed.

Lemma sort_dirs_characterised_witness :
  sort_dirs [VObj [("path", VStr "/a")]; VObj [("path", VStr "/b/c")];
             VObj [("path", VStr "/d")]] =
  Ok [VObj [("path", VStr "/b/c")]; VObj [("path", VStr "/a")];
      VObj [("path", VStr "/d")]].
Proof.
  apply sort_dirs_characterised.
  - repeat constructor.
  - apply sorted_by_depthb_spec. reflexivity.
  - intros n. unfold at_depth. simpl.
    change (depth_of (VObj [("path", VStr "/a")])) with 1%nat.
    change (depth_of (VObj [("path", VStr "/b/c")])) with 2%nat.
    change (depth_of (VObj [("path", VStr "/d")])) with 1%nat.
    destruct n as [|[|[|n]]]; reflexivity.
Defined.

(** *** What no handler undoes *)

Lemma grows_ret A X (part : State -> list X) (a : A) : grows part (ret a).
Proof. intros st r st' H. injection H as _ <-. exists []. now rewrite app_nil_r. Qed.

Lemma grows_lift A X (part : State -> list X) (r : result A) : grows part (lift r).
Proof. intros st r' st' H. injection H as _ <-. exists []. now rewrite app_nil_r. Qed.

Lemma grows_bind A B X (part : State -> list X) (m : M A) (k : A -> M B) :
  grows part m -> (forall a, grows part (k a)) -> grows part (bind m k).
Proof.
  intros Hm Hk st r st' H.
  apply bind_run in H as [(e & H & _) | (a & st1 & H & H')].
  - eapply Hm; eauto.
  - destruct (Hm _ _ _ H) as (m1 & E1). destruct (Hk _ _ _ _ H') as (m2 & E2).
    exists (m1 ++ m2). now rewrite E2, E1, app_assoc.
Qed.

Lemma grows_if A X (part : State -> list X) (b : bool) (m1 m2 : M A) :
  grows part m1 -> grows part m2 -> grows part (if b then m1 else m2).
Proof. now destruct b. Qed.

Lemma grows_mapM A B X (part : State -> list X) (f : A -> M B) l :
  (forall x, grows part (f x)) -> grows part (mapM f l).
Proof.
  intros Hf. induction l as [|x l IH]; simpl.
  - apply grows_ret.
  - apply grows_bind; auto. intros y.
    apply grows_bind; auto. intros ys. apply grows_ret.
Qed.

Lemma grows_step A X (part : State -> list X) (m : M A) (delta : State -> list X) :
  (forall st r st', m st = (r, st') -> part st' = part st ++ delta st) ->
  grows part m.
Proof. intros H st r st' Hrun. exists (delta st). eauto. Qed.

Section GrowthFacts.

Variable resolve : string -> string -> string.
Variable resolveAlias : string -> string.
Variable statSync : string -> option bool.
Variable Number : value -> value.
Variable layers : list (value * string).
Variable options_extensions : value.
Variable srcDir : string.
Variable componentOptions_global : value.
Variable on_components_dirs : list value -> result (list value).
Variable on_components_extend : list Component -> result (list Component).
Variable on_generateApp : result unit.
Variable scanComponents : list value -> string -> result (list Component).

Ltac primitive :=
  first [ apply grows_ret | apply grows_lift
        | apply (grows_step _ _ _ _ (fun _ => []));
          intros ? ? ? Hrun; injection Hrun as _ <-; cbn; now rewrite app_nil_r
        | eapply grows_step; intros ? ? ? Hrun; injection Hrun as _ <-; cbn;
          reflexivity ].

Lemma handle_grows X (part : State -> list X) h :
  (forall w, grows part (warn w)) ->
  (forall n, grows part (logHook n)) ->
  (forall ps, grows part (push_transpile ps)) ->
  (forall ds, grows part (set_componentDirs ds)) ->
  (forall cs, grows part (set_components cs)) ->
  grows part (handle resolve resolveAlias statSync Number layers options_extensions
                     srcDir componentOptions_global on_components_dirs
                     on_components_extend on_generateApp scanComponents h).
Proof using Type.
  intros Hwarn Hlog Hpush Hdirs Hcomps.
  assert (Hread : grows part read_componentDirs).
  { intros st r st' H. injection H as _ <-. exists []. now rewrite app_nil_r. }
  destruct h as [| |event path]; simpl.
  - unfold app_resolve.
    repeat (apply grows_bind; [|intros ?]); auto using grows_lift.
    apply grows_mapM. intros dir. unfold resolveDir.
    repeat (apply grows_bind; [|intros ?]); auto using grows_lift, grows_ret.
    apply grows_if; auto using grows_ret.
  - unfold app_templates.
    repeat (apply grows_bind; [|intros ?]); auto using grows_lift.
  - unfold builder_watch. apply grows_if; [apply grows_ret|].
    apply grows_bind; auto. intros dirs.
    apply grows_bind; [apply grows_lift|]. intros [d|]; [|apply grows_ret].
    apply grows_if; [|apply grows_ret].
    apply grows_bind; auto. intros _. apply grows_lift.
Qed.

(** X21.  No handler removes or reorders anything it or another module
    has put in the project's transpile list, written to the console or
    called as a hook: whether it returns or throws, each of the three is
    what it was with something, possibly nothing, appended. *)
Theorem handlers_only_append h st r st' :
  handle resolve resolveAlias statSync Number layers options_extensions
         srcDir componentOptions_global on_components_dirs
         on_components_extend on_generateApp scanComponents h st = (r, st') ->
  (exists paths, build_transpile st' = build_transpile st ++ paths) /\
  (exists lines, console st' = console st ++ lines) /\
  (exists calls, hookCalls st' = hookCalls st ++ calls).
Proof using Type.
  intros H. split; [|split].
  - eapply (handle_grows _ build_transpile); eauto; intros; primitive.
  - eapply (handle_grows _ console); eauto; intros; primitive.
  - eapply (handle_grows _ hookCalls); eauto; intros; primitive.
Qed.

End GrowthFacts.

Lemma handlers_only_append_witness :
  exists paths,
    build_transpile (snd (Sample.handle_with Sample.failing_scan AppResolve
                                             (initial [VStr "vue-demi"]))) =
    VStr "vue-demi" :: paths.
Proof.
  destruct (handlers_only_append Sample.resolve Sample.resolveAlias Sample.statSync
              Sample.Number Sample.one_layer Sample.extensions "/app" VUndefined
              (fun dirs => Ok dirs) (fun cs => Ok cs) (Ok tt) Sample.failing_scan
              AppResolve (initial [VStr "vue-demi"]) _ _ eq_refl)
    as ((paths & Hpaths) & _).
  exists paths. exact Hpaths.
Defined.

Lemma reachable_tracks_descriptors_witness :
  Forall (fun d => is_descriptor d = true)
         (componentDirs (snd (Sample.handle_with Sample.failing_scan AppResolve
                                                 (initial [])))).
Proof.
  apply (reachable_tracks_descriptors Sample.resolve Sample.resolveAlias
           Sample.statSync Sample.Number Sample.one_layer Sample.extensions "/app"
           VUndefined (fun dirs => Ok dirs) (fun cs => Ok cs) (Ok tt)
           Sample.failing_scan []).
  eapply reach_step; [apply reach_initial|].
  unfold Sample.handle_with. apply surjective_pairing.
Defined.

(** *** The default directories and the form of the source root *)

Lemma concat_split_sep s :
  no_backslash s = true -> String.concat "/" (split_sep s) = s.
Proof.
  induction s as [|c s IH]; [reflexivity|].
  cbn [no_backslash split_sep]. intros H.
  apply andb_true_iff in H as [Hc Hs]. specialize (IH Hs).
  unfold is_sep. apply negb_true_iff in Hc. rewrite Hc, orb_false_r.
  pose proof (split_sep_nonempty s) as Hnil.
  destruct (split_sep s) as [|seg segs]; [contradiction|].
  destruct (Ascii.eqb_spec c "/") as [->|Hne].
  - change (String.concat "/" ("" :: seg :: segs))
      with ("" ++ "/" ++ String.concat "/" (seg :: segs))%string.
    rewrite IH. reflexivity.
  - destruct segs as [|y segs].
    + change (String.concat "/" [seg]) with seg in IH.
      change (String.concat "/" [String c seg]) with (String c seg).
      now rewrite IH.
    + change (String.concat "/" (String c seg :: y :: segs))
        with (String c (seg ++ "/" ++ String.concat "/" (y :: segs)))%string.
      change (String.concat "/" (seg :: y :: segs))
        with (seg ++ "/" ++ String.concat "/" (y :: segs))%string in IH.
      now rewrite IH.
Qed.

Lemma fold_step_plain l acc :
  forallb plain_segment l = true ->
  fold_left Pathe.step l acc = rev l ++ acc.
Proof.
  revert acc. induction l as [|x l IH]; simpl; intros acc H; [reflexivity|].
  apply andb_true_iff in H as [Hx Hl].
  unfold plain_segment in Hx.
  apply andb_true_iff in Hx as [Hx Hdd]. apply andb_true_iff in Hx as [He Hd].
  apply negb_true_iff in He, Hd, Hdd.
  unfold Pathe.step at 2. rewrite He, Hd, Hdd. simpl.
  rewrite (IH _ Hl), <- app_assoc. reflexivity.
Qed.

Lemma concat_app_sep sep l1 l2 :
  l1 <> [] -> l2 <> [] ->
  String.concat sep (l1 ++ l2) =
  (String.concat sep l1 ++ sep ++ String.concat sep l2)%string.
Proof.
  intros H1 H2. induction l1 as [|x l1 IH]; [contradiction|].
  destruct l1 as [|y l1].
  - destruct l2; [contradiction | reflexivity].
  - change (String.concat sep ((x :: y :: l1) ++ l2))
      with (x ++ sep ++ String.concat sep ((y :: l1) ++ l2))%string.
    rewrite IH by discriminate.
    change (String.concat sep (x :: y :: l1))
      with (x ++ sep ++ String.concat sep (y :: l1))%string.
    now rewrite !string_append_assoc.
Qed.

(** Under a root in normal form, pathe resolves a relative path of plain
    segments by writing it after the root. *)
Lemma pathe_resolve_under process_cwd cwd rel :
  normalised_root cwd = true ->
  Pathe.isAbsolute rel = false ->
  no_backslash rel = true ->
  forallb plain_segment (split_sep rel) = true ->
  Pathe.resolve process_cwd cwd rel = (cwd ++ "/" ++ rel)%string.
Proof.
  intros Hroot Hrel Hslash Hplain.
  destruct cwd as [|c rest]; [discriminate|]. cbn [normalised_root] in Hroot.
  apply andb_true_iff in Hroot as [Hroot Hsegs].
  apply andb_true_iff in Hroot as [Hc Hrest].
  apply Ascii.eqb_eq in Hc. subst c.
  unfold Pathe.resolve. rewrite Hrel.
  change (Pathe.isAbsolute (String "/" rest)) with true. cbn iota.
  change (split_sep (String "/" rest)) with ("" :: split_sep rest).
  unfold Pathe.normalizeSegments.
  change (("" :: split_sep rest) ++ split_sep rel)
    with ("" :: (split_sep rest ++ split_sep rel)).
  cbn [fold_left]. change (Pathe.step [] "") with (@nil string).
  rewrite fold_left_app, (fold_step_plain _ _ Hsegs), (fold_step_plain _ _ Hplain).
  rewrite app_nil_r, rev_app_distr, !rev_involutive.
  rewrite concat_app_sep by apply split_sep_nonempty.
  rewrite (concat_split_sep _ Hrest), (concat_split_sep _ Hslash).
  reflexivity.
Qed.

Lemma pathe_resolves_defaults process_cwd cwd :
  normalised_root cwd = true ->
  resolves_defaults_under (Pathe.resolve process_cwd) cwd.
Proof.
  intros H. split.
  - apply (pathe_resolve_under process_cwd cwd "components/global" H); reflexivity.
  - apply (pathe_resolve_under process_cwd cwd "components" H); reflexivity.
Qed.

(** C1, as the code has it.  Applied to [true] or to [undefined], the
    normaliser returns exactly two descriptors, in this order: the one whose
    path is [components/global] resolved against the source root, marked
    [global: true], and then the one whose path is [components] resolved
    against the source root, with no [global] field.  The two paths are the
    source root followed by [/components/global] and by [/components]
    whenever resolution under the root is concatenation, which is so with
    pathe for every source root in normal form. *)
Theorem normalizeDirs_default_paths resolve resolveAlias process_cwd cwd dir :
  dir = VBool true \/ dir = VUndefined ->
  normalizeDirs resolve resolveAlias dir cwd =
    Ok (VArr [ VObj [("path", VStr (resolve cwd "components/global"));
                     ("global", VBool true)];
               VObj [("path", VStr (resolve cwd "components"))] ]) /\
  (resolves_defaults_under resolve cwd ->
   normalizeDirs resolve resolveAlias dir cwd =
     Ok (VArr [ VObj [("path", VStr (cwd ++ "/components/global"));
                      ("global", VBool true)];
                VObj [("path", VStr (cwd ++ "/components"))] ])) /\
  (normalised_root cwd = true ->
   normalizeDirs (Pathe.resolve process_cwd) resolveAlias dir cwd =
     Ok (VArr [ VObj [("path", VStr (cwd ++ "/components/global"));
                      ("global", VBool true)];
                VObj [("path", VStr (cwd ++ "/components"))] ])).
Proof.
  intros Hdir. split; [|split].
  - destruct Hdir as [-> | ->]; reflexivity.
  - intros Hjoin. now apply normalizeDirs_default.
  - intros Hroot. apply normalizeDirs_default; auto.
    now apply pathe_resolves_defaults.
Qed.

Lemma normalizeDirs_default_paths_witness :
  normalised_root "/app" = true /\
  normalizeDirs (Pathe.resolve "/srv") Sample.resolveAlias (VBool true) "/app" =
  Ok (VArr [ VObj [("path", VStr "/app/components/global"); ("global", VBool true)];
             VObj [("path", VStr "/app/components")] ]).
Proof.
  split; [reflexivity|].
  apply (proj2 (proj2 (normalizeDirs_default_paths
                         (Pathe.resolve "/srv") Sample.resolveAlias "/srv" "/app"
                         (VBool true) (or_introl eq_refl)))).
  reflexivity.
Defined.

(** C1 fails as stated: for the source root [/app/], and likewise for the
    relative [app] and for [/], the paths pathe resolves are not the root
    followed by [/components/global] and [/components]. *)
Lemma normalizeDirs_default_counterexample :
  normalizeDirs (Pathe.resolve "/srv") Sample.resolveAlias (VBool true) "/app/" =
    Ok (VArr [ VObj [("path", VStr "/app/components/global"); ("global", VBool true)];
               VObj [("path", VStr "/app/components")] ]) /\
  normalizeDirs (Pathe.resolve "/srv") Sample.resolveAlias (VBool true) "/app/" <>
    Ok (VArr [ VObj [("path", VStr ("/app/" ++ "/components/global"));
                     ("global", VBool true)];
               VObj [("path", VStr ("/app/" ++ "/components"))] ]) /\
  normalizeDirs (Pathe.resolve "/srv") Sample.resolveAlias VUndefined "app" =
    Ok (VArr [ VObj [("path", VStr "/srv/app/components/global"); ("global", VBool true)];
               VObj [("path", VStr "/srv/app/components")] ]) /\
  normalizeDirs (Pathe.resolve "/srv") Sample.resolveAlias VUndefined "/" =
    Ok (VArr [ VObj [("path", VStr "/components/global"); ("global", VBool true)];
               VObj [("path", VStr "/components")] ]).
Proof.
  split; [reflexivity|]. split; [|split; reflexivity].
  intros H. vm_compute in H. discriminate.
Qed.
